(** * gox: identifiers ([idx]) and the bounded concurrent mapper ([slicex])

    A shallow embedding of [idx.ParseID] / [idx.ID.String] / [idx.Type] and of
    [slicex.MapConcurrentHandler.Execute], followed by the properties proved
    about them.  Go strings are byte sequences and are modelled by [string]
    (a list of 8-bit [ascii]); Go [int] values are modelled by [Z]; the
    goroutines of [Execute] are modelled by an interleaving step function
    driven by a schedule. *)

From Stdlib Require Import ZArith Lia Ascii String List Permutation.
From stdpp Require Import base tactics option list gmap.
Import ListNotations.

Local Open Scope string_scope.
Local Open Scope list_scope.

(* ===================================================================== *)
(** * Package idx *)
(* ===================================================================== *)

(** [type Type string] *)
Definition ObjType := string.

(** [type ID struct { env string; objectType Type; objectID string }] *)
Record ID := mkID {
  env : string;
  objectType : ObjType;
  objectID : string
}.

(** The failures of [Type.Validate], one constructor per [fmt.Errorf]. *)
Inductive type_error :=
| TypeEmpty        (* "type cannot be empty" *)
| TypeTooLong      (* "type cannot be longer than 32 characters" *)
| TypeHasColon     (* "type cannot contain colons" *)
| TypeBadShape.    (* "type must start with a letter and contain only ..." *)

(** The failures of [ParseID], one constructor per [fmt.Errorf]. *)
Inductive id_error :=
| BadFormat (parts : nat)      (* "invalid ID format: expected 3 parts ..., got %d parts" *)
| EmptyEnv                     (* "invalid ID: env cannot be empty" *)
| BadType (e : type_error)     (* "invalid ID: %w" *)
| EmptyObjectID.               (* "invalid ID: object ID cannot be empty" *)

(** [strings.Split(s, sep)] for a one-byte separator: the substrings between
    the separators; a string without separator gives a single part. *)
Fixpoint Split (s : string) (sep : ascii) : list string :=
  match s with
  | EmptyString => [EmptyString]
  | String c rest =>
      if Ascii.eqb c sep then EmptyString :: Split rest sep
      else match Split rest sep with
           | p :: ps => String c p :: ps
           | [] => [String c EmptyString]
           end
  end.

(** [strings.Contains(s, string(b))] for a one-byte needle. *)
Fixpoint Contains (s : string) (b : ascii) : bool :=
  match s with
  | EmptyString => false
  | String c rest => Ascii.eqb c b || Contains rest b
  end.

Definition byte_in (lo hi : N) (c : ascii) : bool :=
  (N.leb lo (N_of_ascii c) && N.leb (N_of_ascii c) hi)%bool.

(** [[a-zA-Z]] *)
Definition is_letter (c : ascii) : bool :=
  (byte_in 97 122 c || byte_in 65 90 c)%bool.

(** [[a-zA-Z0-9_]] *)
Definition is_word (c : ascii) : bool :=
  (is_letter c || byte_in 48 57 c || Ascii.eqb c "_")%bool.

Fixpoint all_word (s : string) : bool :=
  match s with
  | EmptyString => true
  | String c rest => is_word c && all_word rest
  end.

(** [typeRegex.MatchString] with [typeRegex = ^[a-zA-Z][a-zA-Z0-9_]*$]. *)
Definition typeRegex_MatchString (s : string) : bool :=
  match s with
  | EmptyString => false
  | String c rest => is_letter c && all_word rest
  end.

(** [func (t Type) String() string] *)
Definition Type_String (t : ObjType) : string := t.

(** [func (t Type) Validate() error]; [None] is the nil error. *)
Definition Type_Validate (t : ObjType) : option type_error :=
  let str := t in
  if String.eqb str "" then Some TypeEmpty
  else if Nat.ltb 32 (String.length str) then Some TypeTooLong
  else if Contains str ":" then Some TypeHasColon
  else if negb (typeRegex_MatchString str) then Some TypeBadShape
  else None.

(** [func ParseType(s string) (Type, error)] *)
Definition ParseType (s : string) : ObjType + type_error :=
  let t : ObjType := s in
  match Type_Validate t with
  | Some err => inr err
  | None => inl t
  end.

(** [func (id ID) String() string]: [fmt.Sprintf("%s:%s:%s", ...)]. *)
Definition ID_String (id : ID) : string :=
  env id ++ ":" ++ Type_String (objectType id) ++ ":" ++ objectID id.

(** [func ParseID(s string) (ID, error)] *)
Definition ParseID (s : string) : ID + id_error :=
  let parts := Split s ":" in
  match parts with
  | [environment; p1; objectID] =>
      if String.eqb environment "" then inr EmptyEnv
      else match ParseType p1 with
           | inr err => inr (BadType err)
           | inl objectType =>
               if String.eqb objectID "" then inr EmptyObjectID
               else inl (mkID environment objectType objectID)
           end
  | _ => inr (BadFormat (List.length parts))
  end.

(** [func (id ID) Validate() error] *)
Definition ID_Validate (id : ID) : option id_error :=
  if String.eqb (env id) "" then Some EmptyEnv
  else match Type_Validate (objectType id) with
       | Some err => Some (BadType err)
       | None => if String.eqb (objectID id) "" then Some EmptyObjectID else None
       end.


(** [strings.Count(s, string(b))] for a one-byte needle. *)
Fixpoint Count (s : string) (b : ascii) : nat :=
  match s with
  | EmptyString => 0
  | String c rest => (if Ascii.eqb c b then 1 else 0) + Count rest b
  end.

(** [type Namespace struct { environment string }] *)
Record Namespace := mkNamespace {
  environment : string
}.

(** The failures of [Namespace.NewIDWithValue]. *)
Inductive namespace_error :=
| InvalidObjectType (e : type_error)   (* "invalid object type: %w" *)
| EmptyValue.                          (* "value cannot be empty" *)

Section NamespaceDefs.
(** [strings.TrimSpace], of the Go standard library, is a parameter. *)
Variable TrimSpace : string -> string.

(** [func normalizeEnvironment(env string) string] *)
Definition normalizeEnvironment (env : string) : string :=
  let env := TrimSpace env in
  if (String.eqb env "" || String.eqb env "prd")%bool then "vibe" else env.

(** [func NewNamespace(environment string) Namespace] *)
Definition NewNamespace (environment : string) : Namespace :=
  let env := normalizeEnvironment environment in
  mkNamespace env.

End NamespaceDefs.

(** [func (n Namespace) Environment() string] *)
Definition Environment (n : Namespace) : string := environment n.

(** [func (n Namespace) NewIDWithValue(objectType Type, value string) (ID, error)] *)
Definition NewIDWithValue (n : Namespace) (objectType : ObjType) (value : string)
  : ID + namespace_error :=
  match Type_Validate objectType with
  | Some err => inr (InvalidObjectType err)
  | None =>
      if String.eqb value "" then inr EmptyValue
      else inl (mkID (environment n) objectType value)
  end.

(* ===================================================================== *)
(** * Package slicex: the bounded concurrent mapper *)
(* ===================================================================== *)

Local Close Scope string_scope.

(** Go's zero value of a type ([var zero R]). *)
Class GoZero (A : Type) := go_zero : A.

(** The two contexts of [Execute]: the caller's [ctx] and the cancellable
    [child] derived from it with [context.WithCancel]. *)
Inductive ctx_name := CtxAmbient | CtxChild.

Section Slicex.
Context {T R E : Type} `{GoZero R}.

(** What a transform can see of the [context.Context] it is handed: which
    context it is and the value of [Err()] ([None] while it is live). *)
Record Context := mkContext {
  ctx_which : ctx_name;
  ctx_Err : option E
}.

(** [type MapConcurrentHandler[T, R any] struct]: [mapFunc] returns the
    pair [(R, error)], [None] being the nil error.  The transform is taken
    to return; what it returns may depend on the element and on the context
    it is handed, as that context is when the call returns. *)
Record MapConcurrentHandler := mkHandler {
  mapFunc : Context -> T -> R * option E;
  concurrency : Z;
  stopOnError : bool
}.

(** [func (h *MapConcurrentHandler[T, R]) WithConcurrency(n int)] *)
Definition WithConcurrency (h : MapConcurrentHandler) (n : Z) : MapConcurrentHandler :=
  mkHandler (mapFunc h) n (stopOnError h).

(** [func (h *MapConcurrentHandler[T, R]) WithStopOnError(stop bool)] *)
Definition WithStopOnError (h : MapConcurrentHandler) (stop : bool) : MapConcurrentHandler :=
  mkHandler (mapFunc h) (concurrency h) stop.

(** [func MapConcurrent[T, R any](mapFunc ...)]: concurrency 8, stop on
    the first error. *)
Definition MapConcurrent (f : Context -> T -> R * option E) : MapConcurrentHandler :=
  mkHandler f 8 true.

(** [type mapConcurrentJob[T any] struct { index int; value T }] *)
Record mapConcurrentJob := mkJob {
  index : nat;
  value : T
}.

(** [errors.Join(errs...)]: nil when every argument is nil, otherwise an
    error wrapping the non-nil arguments in order. *)
Fixpoint non_nil (errs : list (option E)) : list E :=
  match errs with
  | [] => []
  | None :: rest => non_nil rest
  | Some e :: rest => e :: non_nil rest
  end.

Definition errors_Join (errs : list (option E)) : option (list E) :=
  match non_nil errs with
  | [] => None
  | e :: rest => Some (e :: rest)
  end.

(** ** Control state of the goroutines *)

(** The goroutine that called [Execute]. *)
Inductive main_pc :=
| MStart                 (* entering Execute *)
| MAdd                   (* at wg.Add(numWorkers) *)
| MSpawn (i : nat)       (* at the head of the loop starting workers, counter i *)
| MWait                  (* at wg.Wait() *)
| MReturned (out : option (list R)) (err : option (list E))
| MPanicked.

(** A [startWorker] goroutine. *)
Inductive worker_pc :=
| WSelect                          (* blocked in the select *)
| WCall (j : mapConcurrentJob)     (* inside h.mapFunc(ctx, item.value) *)
| WExited.                         (* returned; wg.Done() has run *)

(** The goroutine sending the jobs. *)
Inductive disp_pc :=
| DNotStarted
| DSend (i : nat)        (* at the select of iteration i, or leaving the loop *)
| DClosed.               (* close(jobs) has run *)

(** What the goroutines do to the shared data, most recent first. *)
Inductive event :=
| EvInvoke (c : ctx_name) (i : nat)   (* h.mapFunc(c, items[i]) is called *)
| EvStore (i : nat) (v : R)           (* results[i] = v *)
| EvFail (i : nat) (e : E)            (* errs[i] = e *)
| EvCancel.                           (* cancel() *)

Record state := mkState {
  main : main_pc;
  workers : list worker_pc;
  disp : disp_pc;
  jobs : list mapConcurrentJob;  (* buffer of the channel jobs *)
  closed : bool;                 (* jobs is closed *)
  child_done : bool;             (* child.Done() is closed *)
  ambient : option E;            (* ctx.Err() *)
  results : list R;
  errs : list (option E);
  wg : Z;                        (* counter of the sync.WaitGroup *)
  trace : list event
}.

Definition set_main (m : main_pc) (st : state) : state :=
  mkState m (workers st) (disp st) (jobs st) (closed st) (child_done st)
          (ambient st) (results st) (errs st) (wg st) (trace st).
Definition set_workers (ws : list worker_pc) (st : state) : state :=
  mkState (main st) ws (disp st) (jobs st) (closed st) (child_done st)
          (ambient st) (results st) (errs st) (wg st) (trace st).
Definition set_disp (d : disp_pc) (st : state) : state :=
  mkState (main st) (workers st) d (jobs st) (closed st) (child_done st)
          (ambient st) (results st) (errs st) (wg st) (trace st).
Definition set_jobs (b : list mapConcurrentJob) (st : state) : state :=
  mkState (main st) (workers st) (disp st) b (closed st) (child_done st)
          (ambient st) (results st) (errs st) (wg st) (trace st).
Definition set_closed (c : bool) (st : state) : state :=
  mkState (main st) (workers st) (disp st) (jobs st) c (child_done st)
          (ambient st) (results st) (errs st) (wg st) (trace st).
Definition set_child_done (c : bool) (st : state) : state :=
  mkState (main st) (workers st) (disp st) (jobs st) (closed st) c
          (ambient st) (results st) (errs st) (wg st) (trace st).
Definition set_ambient (a : option E) (st : state) : state :=
  mkState (main st) (workers st) (disp st) (jobs st) (closed st) (child_done st)
          a (results st) (errs st) (wg st) (trace st).
Definition set_results (r : list R) (st : state) : state :=
  mkState (main st) (workers st) (disp st) (jobs st) (closed st) (child_done st)
          (ambient st) r (errs st) (wg st) (trace st).
Definition set_errs (e : list (option E)) (st : state) : state :=
  mkState (main st) (workers st) (disp st) (jobs st) (closed st) (child_done st)
          (ambient st) (results st) e (wg st) (trace st).
Definition set_wg (n : Z) (st : state) : state :=
  mkState (main st) (workers st) (disp st) (jobs st) (closed st) (child_done st)
          (ambient st) (results st) (errs st) n (trace st).
Definition log (ev : event) (st : state) : state :=
  mkState (main st) (workers st) (disp st) (jobs st) (closed st) (child_done st)
          (ambient st) (results st) (errs st) (wg st) (ev :: trace st).

(** A panic in any goroutine ends the program. *)
Definition panic (st : state) : state := set_main MPanicked st.

(** [wg.Add(delta)]: panics when the counter would go negative. *)
Definition wg_Add (delta : Z) (st : state) : state :=
  if (wg st + delta <? 0)%Z then panic st else set_wg (wg st + delta) st.

(** [cancel()] of the child context. *)
Definition cancel (st : state) : state :=
  log EvCancel (set_child_done true st).

(** [child, cancel := context.WithCancel(ctx)]: the child of a context that
    is already cancelled is born cancelled. *)
Definition WithCancel (st : state) : state :=
  set_child_done (match ambient st with Some _ => true | None => false end) st.

(** A worker returns: its deferred [wg.Done()] runs. *)
Definition worker_exit (w : nat) (st : state) : state :=
  wg_Add (-1) (set_workers (<[w := WExited]> (workers st)) st).

(** [results[i] = v] and [errs[i] = e]; an index out of range panics. *)
Definition store_result (i : nat) (v : R) (st : state) : state :=
  if i <? length (results st)
  then log (EvStore i v) (set_results (<[i := v]> (results st)) st)
  else panic st.

Definition store_err (i : nat) (e : E) (st : state) : state :=
  if i <? length (errs st)
  then log (EvFail i e) (set_errs (<[i := Some e]> (errs st)) st)
  else panic st.

Section Run.
Variable h : MapConcurrentHandler.
Variable items : list T.

(** [numWorkers := h.concurrency; if n := len(items); n < numWorkers { numWorkers = n }] *)
Definition numWorkers : Z :=
  let n := Z.of_nat (length items) in
  if (n <? concurrency h)%Z then n else concurrency h.

(** The end of [Execute] after [wg.Wait()]: the context error is appended,
    the errors are joined, the deferred [cancel()] runs. *)
Definition finish (st : state) : state :=
  let errs' := errs st ++ [ambient st] in
  let st' := cancel (set_errs errs' st) in
  match errors_Join errs' with
  | Some err => set_main (MReturned None (Some err)) st'
  | None => set_main (MReturned (Some (results st)) None) st'
  end.

(** One step of the goroutine that called [Execute]. *)
Definition step_main (st : state) : option state :=
  match main st with
  | MStart =>
      if length items =? 0 then Some (set_main (MReturned None None) st)
      else Some (set_main MAdd
                   (WithCancel
                      (set_results (replicate (length items) go_zero)
                         (set_errs (replicate (length items + 1) None) st))))
  | MAdd =>
      let st' := wg_Add numWorkers st in
      match main st' with
      | MPanicked => Some st'
      | _ => Some (set_main (MSpawn 0) st')
      end
  | MSpawn i =>
      if (Z.of_nat i <? numWorkers)%Z
      then Some (set_main (MSpawn (S i)) (set_workers (workers st ++ [WSelect]) st))
      else Some (set_main MWait (set_disp (DSend 0) st))
  | MWait => if (wg st =? 0)%Z then Some (finish st) else None
  | MReturned _ _ | MPanicked => None
  end.

(** The three things a worker can do: take the [<-child.Done()] branch of
    its select, take the [<-jobs] branch, or come back from the transform
    and record the outcome. *)
Definition step_worker_done (w : nat) (st : state) : option state :=
  match workers st !! w with
  | Some WSelect => if child_done st then Some (worker_exit w st) else None
  | _ => None
  end.

Definition step_worker_recv (w : nat) (st : state) : option state :=
  match workers st !! w with
  | Some WSelect =>
      match jobs st with
      | item :: rest =>
          Some (log (EvInvoke CtxAmbient (index item))
                  (set_workers (<[w := WCall item]> (workers st)) (set_jobs rest st)))
      | [] => if closed st then Some (worker_exit w st) else None
      end
  | _ => None
  end.

Definition step_worker_ret (w : nat) (st : state) : option state :=
  match workers st !! w with
  | Some (WCall item) =>
      let '(v, err) := mapFunc h (mkContext CtxAmbient (ambient st)) (value item) in
      match err with
      | Some e =>
          let st' := store_err (index item) e st in
          match main st' with
          | MPanicked => Some st'
          | _ =>
              if stopOnError h then Some (worker_exit w (cancel st'))
              else Some (set_workers (<[w := WSelect]> (workers st')) st')
          end
      | None =>
          let st' := store_result (index item) v st in
          match main st' with
          | MPanicked => Some st'
          | _ => Some (set_workers (<[w := WSelect]> (workers st')) st')
          end
      end
  | _ => None
  end.

(** The sender: the [jobs <- job] branch of its select (or the end of the
    loop, which closes the channel), and the [<-child.Done()] branch. *)
Definition step_disp_send (st : state) : option state :=
  match disp st with
  | DSend i =>
      match items !! i with
      | Some item =>
          if length (jobs st) <? length items
          then Some (set_disp (DSend (S i)) (set_jobs (jobs st ++ [mkJob i item]) st))
          else None
      | None => Some (set_disp DClosed (set_closed true st))
      end
  | _ => None
  end.

Definition step_disp_done (st : state) : option state :=
  match disp st with
  | DSend i =>
      if (i <? length items) && child_done st
      then Some (set_disp DClosed (set_closed true st))
      else None
  | _ => None
  end.

(** The environment: the caller's context is cancelled or expires, and the
    cancellation then reaches the child context. *)
Definition step_env_cancel (e : E) (st : state) : option state :=
  match ambient st with
  | None => Some (set_ambient (Some e) st)
  | Some _ => None
  end.

Definition step_env_propagate (st : state) : option state :=
  match ambient st with
  | Some _ => if child_done st then None else Some (set_child_done true st)
  | None => None
  end.

Inductive action :=
| AMain
| AWorkerDone (w : nat)
| AWorkerRecv (w : nat)
| AWorkerRet (w : nat)
| ADispSend
| ADispDone
| AEnvCancel (e : E)
| AEnvPropagate.

Definition is_env (a : action) : bool :=
  match a with
  | AEnvCancel _ | AEnvPropagate => true
  | _ => false
  end.

Definition finished (st : state) : bool :=
  match main st with
  | MReturned _ _ | MPanicked => true
  | _ => false
  end.

(** One step of the whole system; nothing moves once [Execute] has
    returned or the program has panicked. *)
Definition step (a : action) (st : state) : option state :=
  if finished st then None else
  match a with
  | AMain => step_main st
  | AWorkerDone w => step_worker_done w st
  | AWorkerRecv w => step_worker_recv w st
  | AWorkerRet w => step_worker_ret w st
  | ADispSend => step_disp_send st
  | ADispDone => step_disp_done st
  | AEnvCancel e => step_env_cancel e st
  | AEnvPropagate => step_env_propagate st
  end.

(** [Execute(ctx, items)] is entered with the caller's context in the
    state [ctx]. *)
Definition Execute_init (ctx : Context) : state :=
  mkState MStart [] DNotStarted [] false false (ctx_Err ctx) [] [] 0 [].

(** Running a schedule. *)
Fixpoint run (sched : list action) (st : state) : option state :=
  match sched with
  | [] => Some st
  | a :: rest =>
      match step a st with
      | Some st' => run rest st'
      | None => None
      end
  end.

(** The states [Execute] can be in. *)
Inductive reachable (ctx : Context) : state -> Prop :=
| reach_init : reachable ctx (Execute_init ctx)
| reach_step st a st' :
    reachable ctx st -> step a st = Some st' -> reachable ctx st'.

(** [inevitably P st]: from [st], whatever the scheduler and the
    environment do, the program is never stuck and reaches a state
    satisfying [P] after finitely many steps. *)
Inductive inevitably (P : state -> Prop) : state -> Prop :=
| inev_now st : P st -> inevitably P st
| inev_step st :
    (exists a st', is_env a = false /\ step a st = Some st') ->
    (forall a st', step a st = Some st' -> inevitably P st') ->
    inevitably P st.

(** The outcome of [Execute] under a schedule, when the schedule runs it to
    its end. *)
Inductive outcome :=
| Returned (out : option (list R)) (err : option (list E))
| Panicked.

Definition outcome_of (st : state) : option outcome :=
  match main st with
  | MReturned out err => Some (Returned out err)
  | MPanicked => Some Panicked
  | _ => None
  end.

Definition Execute (ctx : Context) (sched : list action) : option outcome :=
  match run sched (Execute_init ctx) with
  | Some st => outcome_of st
  | None => None
  end.

End Run.

(** The number of invocations of the transform that are in flight. *)
Definition is_call (w : worker_pc) : bool :=
  match w with
  | WCall _ => true
  | _ => false
  end.

Definition in_flight (st : state) : nat :=
  length (List.filter is_call (workers st)).

End Slicex.

(* ===================================================================== *)
(** * Package slicex: the sequential helpers *)
(* ===================================================================== *)

(** A slice result is [None] for Go's nil slice and [Some l] for a non-nil
    slice with the elements [l].  Element types are [comparable] types on
    which [==] is an equality (so not floating-point types, because of
    NaN); map keys are countable. *)

(** What a function does: it returns, or it panics. *)
Inductive go_result (A : Type) :=
| Ok (a : A)
| Panic.
Arguments Ok {A} a.
Arguments Panic {A}.

Section Helpers.
Context {T : Type} `{Countable T}.

(** [seen[item]] on a [map[T]bool]: a missing key reads as false. *)
Definition seen_at (seen : gmap T bool) (item : T) : bool :=
  default false (seen !! item).

(** The body of the loop of [Unique], on the pair [(seen, result)]. *)
Definition Unique_step (acc : gmap T bool * list T) (item : T)
  : gmap T bool * list T :=
  let '(seen, result) := acc in
  if negb (seen_at seen item)
  then (<[item := true]> seen, result ++ [item])
  else (seen, result).

(** [func Unique[T comparable](slice []T) []T] *)
Definition Unique (slice : list T) : option (list T) :=
  if length slice =? 0 then None
  else Some (foldl Unique_step (∅, []) slice).2.

(** [func FilterNonZero[T comparable](slice []T) []T]: [make([]T, 0, n)]
    is never nil. *)
Definition FilterNonZero `{GoZero T} (slice : list T) : option (list T) :=
  let zero : T := go_zero in
  Some (foldl (fun result item =>
                 if decide (item <> zero) then result ++ [item] else result)
              [] slice).

End Helpers.

Section MapGroup.
Context {T R : Type}.

(** [result[i] = v] on a slice: an index out of range panics. *)
Definition slice_set (i : nat) (v : R) (result : go_result (list R))
  : go_result (list R) :=
  match result with
  | Ok l => if i <? length l then Ok (<[i := v]> l) else Panic
  | Panic => Panic
  end.

(** [func Map[T, R any](slice []T, fn func(T) R) []R] *)
Definition Map `{GoZero R} (slice : list T) (fn : T -> R)
  : go_result (option (list R)) :=
  if length slice =? 0 then Ok None
  else
    match foldl (fun result '(i, item) => slice_set i (fn item) result)
                (Ok (replicate (length slice) go_zero))
                (imap pair slice) with
    | Ok l => Ok (Some l)
    | Panic => Panic
    end.

(** [func Group[T any, K comparable](slice []T, keyFn func(T) K) map[K][]T]:
    [result[key]] is nil for a missing key, and [append] to nil starts a
    new slice. *)
Definition Group {K : Type} `{Countable K} (slice : list T) (keyFn : T -> K)
  : gmap K (list T) :=
  foldl (fun result item =>
           let key := keyFn item in
           <[key := default [] (result !! key) ++ [item]]> result)
        ∅ slice.

End MapGroup.

(* ===================================================================== *)
(** * Observations, invariant and measure for the mapper *)
(* ===================================================================== *)

Section Analysis.
Context {T R E : Type} `{GoZero R}.
Variable h : @MapConcurrentHandler T R E.
Variable items : list T.

(** The number of jobs taken from the channel so far. *)
Fixpoint invoked (tr : list (@event R E)) : nat :=
  match tr with
  | [] => 0
  | EvInvoke _ _ :: rest => S (invoked rest)
  | _ :: rest => invoked rest
  end.

(** The indices whose result slot or error slot has been assigned. *)
Fixpoint written (tr : list (@event R E)) : list nat :=
  match tr with
  | [] => []
  | EvStore i _ :: rest => i :: written rest
  | EvFail i _ :: rest => i :: written rest
  | _ :: rest => written rest
  end.

(** The indices of the jobs inside the transform. *)
Fixpoint flying (ws : list (@worker_pc T)) : list nat :=
  match ws with
  | [] => []
  | WCall j :: rest => index j :: flying rest
  | _ :: rest => flying rest
  end.

(** The number of workers that have returned. *)
Fixpoint exited (ws : list (@worker_pc T)) : nat :=
  match ws with
  | [] => 0
  | WExited :: rest => S (exited rest)
  | _ :: rest => exited rest
  end.

(** The jobs in the order the sender offers them. *)
Definition all_jobs : list (@mapConcurrentJob T) := imap mkJob items.

(** The transform, handed the caller's context, gave this outcome on
    [items[i]]; the context was live if it still is. *)
Definition produced (amb : option E) (i : nat) (v : R) (err : option E) : Prop :=
  exists c x, items !! i = Some x /\ ctx_which c = CtxAmbient /\
              (amb = None -> ctx_Err c = None) /\
              mapFunc h c x = (v, err).

(** The invariant of the states in which [Execute] is still running. *)
Record Inv (st : @state T R E) : Prop := mkInv {
  inv_running : finished st = false;
  inv_shape : main st <> MStart ->
      length (results st) = length items /\
      length (errs st) = S (length items) /\
      errs st !! length items = Some None /\ items <> [];
  inv_pc :
      match main st with
      | MStart | MAdd =>
          workers st = [] /\ wg st = 0%Z /\ disp st = DNotStarted /\
          trace st = []
      | MSpawn i =>
          length (workers st) = i /\ (Z.of_nat i <= numWorkers h items)%Z /\
          wg st = (numWorkers h items - Z.of_nat (exited (workers st)))%Z /\
          disp st = DNotStarted
      | MWait =>
          Z.of_nat (length (workers st)) = numWorkers h items /\
          wg st = (numWorkers h items - Z.of_nat (exited (workers st)))%Z /\
          disp st <> DNotStarted
      | _ => False
      end;
  inv_buf :
      jobs st = take (length (jobs st)) (drop (invoked (trace st)) all_jobs) /\
      invoked (trace st) + length (jobs st) <= length items;
  inv_disp :
      match disp st with
      | DNotStarted =>
          invoked (trace st) + length (jobs st) = 0 /\ closed st = false
      | DSend d =>
          d = invoked (trace st) + length (jobs st) /\ closed st = false
      | DClosed =>
          closed st = true /\
          (child_done st = false ->
           invoked (trace st) + length (jobs st) = length items)
      end;
  inv_acct :
      written (trace st) ++ flying (workers st) ≡ₚ seq 0 (invoked (trace st));
  inv_jobs : forall w j,
      workers st !! w = Some (WCall j) -> items !! index j = Some (value j);
  inv_stored : forall i v,
      EvStore i v ∈ trace st ->
      results st !! i = Some v /\ errs st !! i = Some None /\
      produced (ambient st) i v None;
  inv_failed : forall i e,
      EvFail i e ∈ trace st ->
      errs st !! i = Some (Some e) /\ results st !! i = Some go_zero /\
      exists v, produced (ambient st) i v (Some e);
  inv_fresh : forall i,
      main st <> MStart -> i < length items -> i ∉ written (trace st) ->
      results st !! i = Some go_zero /\ errs st !! i = Some None;
  inv_cause :
      child_done st = true ->
      ambient st <> None \/
      (stopOnError h = true /\ exists i e, EvFail i e ∈ trace st);
  inv_exit : forall w,
      workers st !! w = Some WExited ->
      child_done st = true \/ (closed st = true /\ jobs st = []);
  inv_ctx : forall c i, EvInvoke c i ∈ trace st -> c = CtxAmbient;
  inv_idle : workers st = [] -> trace st = []
}.

(** The states in which [Execute] has ended: each comes from a running
    state by a step of the goroutine that called [Execute]. *)
Definition Ended (st : @state T R E) : Prop :=
  finished st = true /\
  exists st0, Inv st0 /\ step_main h items st0 = Some st.

(** A bound on the number of steps still to come. *)
Definition main_rem (m : @main_pc R E) : nat :=
  let n := Z.to_nat (numWorkers h items) in
  match m with
  | MStart => 2 * n + 3 * length items + 6
  | MAdd => 2 * n + 3 * length items + 4
  | MSpawn i => 2 * (n - i) + 3 * length items + 3
  | MWait => 1
  | _ => 0
  end.

Definition worker_rem (w : @worker_pc T) : nat :=
  match w with
  | WSelect => 1
  | WCall _ => 2
  | WExited => 0
  end.

Definition disp_rem (d : disp_pc) : nat :=
  match d with
  | DNotStarted => 3 * length items + 1
  | DSend i => 3 * (length items - i) + 1
  | DClosed => 0
  end.

Definition measure (st : @state T R E) : nat :=
  main_rem (main st) + sum_list_with worker_rem (workers st)
  + disp_rem (disp st) + 2 * length (jobs st)
  + (match ambient st with Some _ => 0 | None => 1 end)
  + (if child_done st then 0 else 1).

End Analysis.

(* ===================================================================== *)
(** * Instances used in the examples *)
(* ===================================================================== *)

#[global] Instance nat_GoZero : GoZero nat := 0.

(** [context.Background()] and a context whose [Err()] is
    [context.Canceled]. *)
Definition background : @Context string :=
  mkContext CtxAmbient None.

Definition canceled : string := "context canceled"%string.

Definition canceled_ctx : @Context string :=
  mkContext CtxAmbient (Some canceled).

(** The transforms of the test suite: doubling, and doubling that fails on
    the value 3. *)
Definition double (c : @Context string) (n : nat) : nat * option string :=
  (2 * n, None).

Definition fail_at_3 (c : @Context string) (n : nat) : nat * option string :=
  if n =? 3 then (0, Some "error at 3"%string) else (2 * n, None).

(** A schedule in which the only worker takes the [<-child.Done()] branch
    before any job is sent, and one in which a job is sent first. *)
Definition sched_done_first : list (@action string) :=
  [AMain; AMain; AMain; AMain; AWorkerDone 0; AMain].

Definition sched_send_then_done : list (@action string) :=
  [AMain; AMain; AMain; AMain; ADispSend; AWorkerDone 0; AMain].

(** A schedule that runs two workers over two jobs. *)
Definition sched_two_workers : list (@action string) :=
  [AMain; AMain; AMain; AMain; AMain; ADispSend; AWorkerRecv 0; ADispSend;
   AWorkerRecv 1; AWorkerRet 1; AWorkerRet 0; ADispSend; AWorkerRecv 0;
   AWorkerRecv 1; AMain].

(* ===================================================================== *)
(** * Properties of package idx *)
(* ===================================================================== *)

Section IdxFacts.
Local Open Scope string_scope.

(** Joining the parts of a split with the separator gives the string back. *)
Lemma Split_nonempty s sep : Split s sep <> [].
Proof.
  destruct s as [|c s]; simpl; [discriminate|].
  destruct (Ascii.eqb c sep); [discriminate|].
  destruct (Split s sep); discriminate.
Qed.

Lemma Split_one s sep a : Split s sep = [a] -> s = a.
Proof.
  revert a. induction s as [|x s IH]; intros a; simpl.
  - congruence.
  - destruct (Ascii.eqb x sep).
    + intros [= _ Hs]. now apply Split_nonempty in Hs.
    + destruct (Split s sep) as [|p ps] eqn:Hp; [now apply Split_nonempty in Hp|].
      intros [= <- ->]. f_equal. now apply IH.
Qed.

Lemma Split_more s sep a b l :
  Split s sep = a :: b :: l ->
  exists s', s = a ++ String sep s' /\ Split s' sep = b :: l.
Proof.
  revert a. induction s as [|x s IH]; intros a; simpl.
  - discriminate.
  - destruct (Ascii.eqb_spec x sep) as [->|Hne].
    + intros [= <- Hs]. now exists s.
    + destruct (Split s sep) as [|p ps] eqn:Hp; [now apply Split_nonempty in Hp|].
      intros [= <- ->]. destruct (IH p eq_refl) as (s' & -> & Hs').
      now exists s'.
Qed.

Lemma Split_three s sep a b c :
  Split s sep = [a; b; c] ->
  s = a ++ String sep (b ++ String sep c).
Proof.
  intros Hs.
  apply Split_more in Hs as (s1 & -> & Hs).
  apply Split_more in Hs as (s2 & -> & Hs).
  apply Split_one in Hs as ->. reflexivity.
Qed.

Lemma ParseID_parts s id :
  ParseID s = inl id ->
  Split s ":" = [env id; objectType id; objectID id].
Proof.
  unfold ParseID, ParseType.
  destruct (Split s ":") as [|a [|b [|c [|d l]]]]; try discriminate.
  destruct (String.eqb a ""); [discriminate|].
  destruct (Type_Validate b); [discriminate|].
  destruct (String.eqb c ""); [discriminate|].
  now intros [= <-].
Qed.

(** C10: a string that [ParseID] accepts is printed back unchanged by
    [String], and parsing the printed form gives the same ID again. *)
Theorem C10_ParseID_String_roundtrip (s : string) (id : ID) :
  ParseID s = inl id ->
  ID_String id = s /\ ParseID (ID_String id) = inl id.
Proof.
  intros Hp.
  assert (Hs : ID_String id = s).
  { unfold ID_String, Type_String. symmetry.
    now apply Split_three, ParseID_parts. }
  split; [exact Hs|]. now rewrite Hs.
Qed.

Lemma C10_roundtrip_witness :
  ParseID "vibe:user:custom_value" = inl (mkID "vibe" "user" "custom_value") /\
  ID_String (mkID "vibe" "user" "custom_value") = "vibe:user:custom_value" /\
  ParseID (ID_String (mkID "vibe" "user" "custom_value"))
    = inl (mkID "vibe" "user" "custom_value").
Proof.
  split; [reflexivity|].
  apply (C10_ParseID_String_roundtrip "vibe:user:custom_value"). reflexivity.
Defined.

End IdxFacts.

(* ===================================================================== *)
(** * Properties of the mapper *)
(* ===================================================================== *)

Section SlicexFacts.
Context {T R E : Type} `{GoZero R}.
Variable h : @MapConcurrentHandler T R E.
Variable items : list T.

Implicit Types (st : @state T R E) (ws : list (@worker_pc T)).
Implicit Types (tr : list (@event R E)) (j : @mapConcurrentJob T).

(** ** Workers and traces *)

Lemma flying_app ws1 ws2 : flying (ws1 ++ ws2) = flying ws1 ++ flying ws2.
Proof.
  induction ws1 as [|[| |] ws1 IH]; simpl; rewrite ?IH; reflexivity.
Qed.

Lemma exited_app ws1 ws2 : exited (ws1 ++ ws2) = exited ws1 + exited ws2.
Proof.
  induction ws1 as [|[| |] ws1 IH]; simpl; rewrite ?IH; reflexivity.
Qed.

Lemma flying_insert ws w x y :
  ws !! w = Some x ->
  flying [x] ++ flying (<[w := y]> ws) ≡ₚ flying [y] ++ flying ws.
Proof.
  intros Hw. pose proof (lookup_lt_Some _ _ _ Hw) as Hlt.
  rewrite insert_take_drop by done.
  rewrite <- (take_drop_middle ws w x Hw) at 3.
  rewrite !flying_app.
  change (x :: drop (S w) ws) with ([x] ++ drop (S w) ws).
  change (y :: drop (S w) ws) with ([y] ++ drop (S w) ws).
  rewrite !flying_app. solve_Permutation.
Qed.

Lemma exited_insert ws w x y :
  ws !! w = Some x ->
  exited [x] + exited (<[w := y]> ws) = exited [y] + exited ws.
Proof.
  intros Hw. pose proof (lookup_lt_Some _ _ _ Hw) as Hlt.
  rewrite insert_take_drop by done.
  rewrite <- (take_drop_middle ws w x Hw) at 3.
  rewrite !exited_app.
  change (x :: drop (S w) ws) with ([x] ++ drop (S w) ws).
  change (y :: drop (S w) ws) with ([y] ++ drop (S w) ws).
  rewrite !exited_app. lia.
Qed.

Lemma worker_rem_insert ws w x y :
  ws !! w = Some x ->
  worker_rem x + sum_list_with worker_rem (<[w := y]> ws)
  = worker_rem y + sum_list_with worker_rem ws.
Proof.
  intros Hw. pose proof (lookup_lt_Some _ _ _ Hw) as Hlt.
  rewrite insert_take_drop by done.
  rewrite <- (take_drop_middle ws w x Hw) at 3.
  rewrite !sum_list_with_app. simpl. lia.
Qed.

Lemma exited_le ws : exited ws <= length ws.
Proof. induction ws as [|[| |] ws IH]; simpl; lia. Qed.

Lemma exited_lt ws w x :
  ws !! w = Some x -> x <> WExited -> exited ws < length ws.
Proof.
  revert w. induction ws as [|y ws IH]; intros [|w] Hw Hx; simplify_eq/=.
  - pose proof (exited_le ws). destruct x; simpl; try lia. done.
  - specialize (IH _ Hw Hx). destruct y; simpl; lia.
Qed.

Lemma exited_all ws :
  exited ws = length ws -> forall w x, ws !! w = Some x -> x = WExited.
Proof.
  intros Hall w x Hw.
  assert (x = WExited \/ x <> WExited) as [|Hne] by (destruct x; auto).
  - done.
  - pose proof (exited_lt _ _ _ Hw Hne). lia.
Qed.

Lemma elem_of_written_store tr i v : EvStore i v ∈ tr -> i ∈ written tr.
Proof.
  induction tr as [|ev tr IH]; [by intros ?%elem_of_nil|].
  intros [<-|Hin]%elem_of_cons; [by left|].
  destruct ev; simpl; try right; auto.
Qed.

Lemma elem_of_written_fail tr i e : EvFail i e ∈ tr -> i ∈ written tr.
Proof.
  induction tr as [|ev tr IH]; [by intros ?%elem_of_nil|].
  intros [<-|Hin]%elem_of_cons; [by left|].
  destruct ev; simpl; try right; auto.
Qed.

Lemma elem_of_flying ws w j : ws !! w = Some (WCall j) -> index j ∈ flying ws.
Proof.
  revert w. induction ws as [|x ws IH]; intros [|w] Hw; simplify_eq/=.
  - by left.
  - destruct x; simpl; try right; eauto.
Qed.

(** ** The channel buffer as a window of the job sequence *)

Lemma all_jobs_lookup k j :
  all_jobs items !! k = Some j -> index j = k /\ items !! k = Some (value j).
Proof.
  unfold all_jobs. rewrite list_lookup_imap.
  destruct (items !! k) as [x|]; simpl; [|done]. by intros [= <-].
Qed.

Lemma window_head {A} (L : list A) k n x rest :
  x :: rest = take n (drop k L) ->
  L !! k = Some x /\ rest = take (length rest) (drop (S k) L).
Proof.
  intros Hwin. destruct (L !! k) as [y|] eqn:Hk.
  - rewrite (drop_S _ _ _ Hk) in Hwin.
    destruct n as [|n]; simplify_eq/=. split; [done|].
    rewrite length_take.
    destruct (Nat.min_spec n (length (drop (S k) L))) as [[_ ->]|[? ->]];
      [done|]. by rewrite !take_ge by lia.
  - apply lookup_ge_None in Hk. rewrite drop_ge in Hwin by done.
    by rewrite take_nil in Hwin.
Qed.

Lemma window_snoc {A} (L : list A) k b x :
  b = take (length b) (drop k L) -> L !! (k + length b) = Some x ->
  b ++ [x] = take (length (b ++ [x])) (drop k L).
Proof.
  intros Hb Hx. rewrite length_app. simpl.
  replace (length b + 1) with (S (length b)) by lia.
  rewrite (take_S_r _ _ x) by (by rewrite lookup_drop). by rewrite <- Hb.
Qed.

(** ** Consequences of the invariant *)

Lemma Inv_wg_pos st w x :
  Inv h items st -> workers st !! w = Some x -> x <> WExited -> (1 <= wg st)%Z.
Proof.
  intros Hinv Hw Hx. pose proof (exited_lt _ _ _ Hw Hx) as Hlt.
  pose proof (inv_pc _ _ _ Hinv) as Hpc.
  destruct (main st); try done; destruct Hpc as (Hws & Hpc).
  - by rewrite Hws in Hw.
  - by rewrite Hws in Hw.
  - lia.
  - lia.
Qed.

Lemma worker_exit_eq st w :
  (1 <= wg st)%Z ->
  worker_exit w st
  = set_wg (wg st - 1) (set_workers (<[w := WExited]> (workers st)) st).
Proof.
  intros Hwg. unfold worker_exit, wg_Add. simpl.
  destruct (wg st + -1 <? 0)%Z eqn:Hlt; [lia|]. reflexivity.
Qed.

Lemma Inv_flying st w j :
  Inv h items st -> workers st !! w = Some (WCall j) ->
  index j < length items /\ index j ∉ written (trace st).
Proof.
  intros Hinv Hw. split.
  - eapply lookup_lt_Some, inv_jobs; eauto.
  - pose proof (inv_acct _ _ _ Hinv) as Hacct.
    assert (Hnd : NoDup (written (trace st) ++ flying (workers st))).
    { rewrite Hacct. apply NoDup_seq. }
    apply NoDup_app in Hnd as (_ & Hdisj & _).
    intros Hin. eapply Hdisj; eauto using elem_of_flying.
Qed.

Lemma produced_mono amb amb' i v err :
  (amb' = None -> amb = None) ->
  produced h items amb i v err -> produced h items amb' i v err.
Proof.
  intros Hamb (c & x & Hx & Hc & Hlive & Hf). exists c, x. split_and!; auto.
Qed.

(** ** The invariant is kept by every step *)

Ltac st_simpl :=
  cbn [main workers disp jobs closed child_done ambient results errs wg trace
       set_main set_workers set_disp set_jobs set_closed set_child_done
       set_ambient set_results set_errs set_wg log panic cancel finished
       WithCancel invoked written length] in *.

Ltac inv_fields H :=
  destruct H as [Hrun Hshape Hpc Hbuf Hdisp Hacct Hjobs Hst Hfl Hfr Hcause Hexit Hctx
                 Hidle].

Ltac idle_moved Hw :=
  let Hnil := fresh in
  intros Hnil; apply (f_equal length) in Hnil;
  rewrite length_insert in Hnil; apply lookup_lt_Some in Hw;
  simpl in Hnil; lia.

Lemma step_main_Inv st st' :
  Inv h items st -> step_main h items st = Some st' ->
  finished st' = false -> Inv h items st'.
Proof.
  intros Hinv. inv_fields Hinv.
  unfold step_main. intros Hstep Hfin.
  destruct (main st) eqn:Hm; simplify_eq.
  - (* entering Execute *)
    destruct (length items =? 0) eqn:Hlen; simplify_eq/=; try done.
    apply Nat.eqb_neq in Hlen. destruct Hpc as (Hws & Hwg & Hd & Htr).
    split; simpl; rewrite ?Hm, ?Htr in *; try done.
    + intros _. rewrite !length_replicate. split_and!; try lia.
      * apply lookup_replicate_2. lia.
      * by intros ->.
    + by rewrite Hd in *.
    + intros i v ?%elem_of_nil; done.
    + intros i e ?%elem_of_nil; done.
    + intros i _ Hi _. split; apply lookup_replicate_2; lia.
    + destruct (ambient st); [by left|done].
    + intros w. by rewrite Hws.
  - (* wg.Add(numWorkers) *)
    destruct Hpc as (Hws & Hwg & Hd & Htr).
    unfold wg_Add in *. rewrite Hwg in *.
    destruct (0 + numWorkers h items <? 0)%Z eqn:Hneg;
      simpl in Hstep; rewrite ?Hm in Hstep; simplify_eq/=; try done.
    split; simpl; rewrite ?Hm in *; try done.
    + intros _. by apply Hshape.
    + rewrite Hws. simpl. split_and!; try done; lia.
    + intros i _. by apply Hfr.
  - (* the loop starting the workers *)
    destruct Hpc as (Hws & Hle & Hwg & Hd).
    destruct (Z.of_nat i <? numWorkers h items)%Z eqn:Hlt; simplify_eq/=.
    + split; simpl; rewrite ?Hm in *; try done.
      * intros _. by apply Hshape.
      * rewrite length_app, exited_app. simpl. split_and!; try done; lia.
      * by rewrite flying_app, app_nil_r.
      * intros w j Hw. apply lookup_app_Some in Hw as [Hw|[_ Hw]]; eauto.
        by apply list_lookup_singleton_Some in Hw as [_ ?].
      * intros i0 _. by apply Hfr.
      * intros w Hw. apply lookup_app_Some in Hw as [Hw|[_ Hw]]; eauto.
        by apply list_lookup_singleton_Some in Hw as [_ ?].
      * by intros [_ ?]%app_nil.
    + split; simpl; rewrite ?Hm, ?Hd in *; try done.
      * intros _. by apply Hshape.
      * split_and!; try done; lia.
      * destruct Hdisp as [Hk Hcl]. by rewrite Hk.
      * intros i0 _. by apply Hfr.
  - (* wg.Wait() *)
    destruct (wg st =? 0)%Z; simplify_eq/=.
    unfold finish in Hfin. by destruct (errors_Join _).
Qed.

(** The control-state clause after a worker moves from [x] to [y]. *)
Lemma Inv_pc_worker st w x y (wg' : Z) (tr' : list (@event R E)) :
  Inv h items st -> workers st !! w = Some x ->
  (wg' + Z.of_nat (exited [y]) = wg st + Z.of_nat (exited [x]))%Z ->
  match main st with
  | MStart | MAdd =>
      <[w := y]> (workers st) = [] /\ wg' = 0%Z /\ disp st = DNotStarted /\
      tr' = []
  | MSpawn i =>
      length (<[w := y]> (workers st)) = i /\
      (Z.of_nat i <= numWorkers h items)%Z /\
      wg' = (numWorkers h items - Z.of_nat (exited (<[w := y]> (workers st))))%Z /\
      disp st = DNotStarted
  | MWait =>
      Z.of_nat (length (<[w := y]> (workers st))) = numWorkers h items /\
      wg' = (numWorkers h items - Z.of_nat (exited (<[w := y]> (workers st))))%Z /\
      disp st <> DNotStarted
  | _ => False
  end.
Proof.
  intros Hinv Hw Hwg. pose proof (inv_pc _ _ _ Hinv) as Hpc.
  pose proof (exited_insert _ _ _ y Hw) as Hex.
  rewrite length_insert.
  destruct (main st); try done.
  - destruct Hpc as (Hws & _). by rewrite Hws in Hw.
  - destruct Hpc as (Hws & _). by rewrite Hws in Hw.
  - destruct Hpc as (? & ? & ? & ?). split_and!; try done; lia.
  - destruct Hpc as (? & ? & ?). split_and!; try done; lia.
Qed.

Lemma step_worker_done_Inv st st' w :
  Inv h items st -> step_worker_done w st = Some st' -> Inv h items st'.
Proof.
  intros Hinv. unfold step_worker_done. intros Hstep.
  destruct (workers st !! w) as [[| |]|] eqn:Hw; try done.
  destruct (child_done st) eqn:Hcd; simplify_eq.
  rewrite worker_exit_eq by (eapply Inv_wg_pos; eauto).
  pose proof (Inv_pc_worker st w WSelect WExited (wg st - 1)) as Hpc'.
    specialize (fun tr => Hpc' tr Hinv Hw).
  inv_fields Hinv.
  split; st_simpl; try done.
  - apply Hpc'. simpl. lia.
  - rewrite <- Hacct. f_equiv.
    by apply (flying_insert _ _ _ WExited) in Hw.
  - intros w' j Hw'.
    apply list_lookup_insert_Some in Hw' as [(_ & ? & _)|[_ Hw']]; [done|eauto].
  - intros w' Hw'. by left.
  - idle_moved Hw.
Qed.

Lemma step_worker_recv_Inv st st' w :
  Inv h items st -> step_worker_recv w st = Some st' -> Inv h items st'.
Proof.
  intros Hinv. unfold step_worker_recv. intros Hstep.
  destruct (workers st !! w) as [[| |]|] eqn:Hw; try done.
  destruct (jobs st) as [|j rest] eqn:Hb.
  - (* the channel is closed and drained *)
    destruct (closed st) eqn:Hcl; simplify_eq.
    rewrite worker_exit_eq by (eapply Inv_wg_pos; eauto).
    pose proof (Inv_pc_worker st w WSelect WExited (wg st - 1)) as Hpc'.
    specialize (fun tr => Hpc' tr Hinv Hw).
    inv_fields Hinv.
    split; st_simpl; rewrite ?Hb in *; try done.
    + apply Hpc'. simpl. lia.
    + rewrite <- Hacct. f_equiv.
      by apply (flying_insert _ _ _ WExited) in Hw.
    + intros w' j Hw'.
      apply list_lookup_insert_Some in Hw' as [(_ & ? & _)|[_ Hw']]; [done|eauto].
    + intros w' Hw'. by right.
    + idle_moved Hw.
  - (* a job is received *)
    simplify_eq.
    pose proof (Inv_pc_worker st w WSelect (WCall j) (wg st)) as Hpc'.
    specialize (fun tr => Hpc' tr Hinv Hw).
    inv_fields Hinv. rewrite Hb in *. destruct Hbuf as [Hwin Hle].
    apply window_head in Hwin as [Hj Hrest].
    apply all_jobs_lookup in Hj as [Hidx Hval].
    split; st_simpl; try done.
    + apply Hpc'. simpl. lia.
    + split; [done|lia].
    + destruct (disp st); destruct Hdisp as [Hk Hc]; split; try done; try lia.
      intros Hcd. specialize (Hc Hcd). lia.
    + rewrite seq_S, <- Hacct. simpl.
      apply (flying_insert _ _ _ (WCall j)) in Hw. simpl in Hw.
      rewrite Hw, Hidx. solve_Permutation.
    + intros w' j' Hw'.
      apply list_lookup_insert_Some in Hw' as [(_ & ? & _)|[_ Hw']]; [|eauto].
      simplify_eq. by rewrite Hidx.
    + intros i v [?|Hin]%elem_of_cons; [done|]. by apply Hst.
    + intros i e [?|Hin]%elem_of_cons; [done|]. by apply Hfl.
    + intros Hcd. destruct (Hcause Hcd) as [?|(? & i & e & Hin)]; [by left|].
      right. split; [done|]. exists i, e. by right.
    + intros w' Hw'.
      apply list_lookup_insert_Some in Hw' as [(_ & ? & _)|[_ Hw']]; [done|].
      destruct (Hexit _ Hw') as [?|[_ ?]]; [by left|done].
    + intros c i [?|Hin]%elem_of_cons; [by simplify_eq|]. eauto.
    + idle_moved Hw.
Qed.

Lemma not_panicked {A} st (a b : A) :
  finished st = false ->
  match main st with MPanicked => a | _ => b end = b.
Proof. unfold finished. by destruct (main st). Qed.

Ltac worker_moved Hw' :=
  apply list_lookup_insert_Some in Hw' as [(_ & ? & _)|[_ Hw']];
  [try done; simplify_eq | eauto].

Lemma step_worker_ret_Inv st st' w :
  Inv h items st -> step_worker_ret h w st = Some st' -> Inv h items st'.
Proof.
  intros Hinv. unfold step_worker_ret. intros Hstep.
  destruct (workers st !! w) as [[|j|]|] eqn:Hw; try done.
  destruct (Inv_flying _ _ _ Hinv Hw) as [Hi Hnew].
  pose proof (Inv_wg_pos _ _ _ Hinv Hw ltac:(done)) as Hwg.
  pose proof (inv_jobs _ _ _ Hinv _ _ Hw) as Hjob.
  pose proof (inv_running _ _ _ Hinv) as Hrun0.
  pose proof (inv_shape _ _ _ Hinv) as Hshape0.
  assert (Hne : main st <> MStart).
  { intros Hm. pose proof (inv_pc _ _ _ Hinv) as Hpc. rewrite Hm in Hpc.
    destruct Hpc as [Hws _]. by rewrite Hws in Hw. }
  destruct (Hshape0 Hne) as (Hlr & Hle & HslotN & Hitems).
  destruct (mapFunc h _ (value j)) as [v [e|]] eqn:Hf.
  - (* the transform failed *)
    unfold store_err in Hstep.
    destruct (index j <? length (errs st)) eqn:Hlt;
      [|apply Nat.ltb_ge in Hlt; lia].
    st_simpl. rewrite not_panicked in Hstep by done.
    destruct (stopOnError h) eqn:Hstop; simplify_eq.
    + rewrite worker_exit_eq by (st_simpl; lia).
      pose proof (Inv_pc_worker st w (WCall j) WExited (wg st - 1)) as Hpc'.
      specialize (fun tr => Hpc' tr Hinv Hw).
      inv_fields Hinv. split; st_simpl; try done.
      * intros _. rewrite length_insert.
        rewrite list_lookup_insert_ne by lia. done.
      * apply Hpc'. simpl. lia.
      * destruct (disp st); destruct Hdisp as [Hk Hc]; split; done.
      * rewrite <- Hacct.
        apply (flying_insert _ _ _ WExited) in Hw. simpl in Hw.
        rewrite <- Hw. solve_Permutation.
      * intros w' j' Hw'. worker_moved Hw'.
      * intros i v' [?|[?|Hin]%elem_of_cons]%elem_of_cons; try done.
        assert (i <> index j).
        { intros ->. by apply elem_of_written_store in Hin. }
        rewrite list_lookup_insert_ne by done. by apply Hst.
      * intros i e' [?|[?|Hin]%elem_of_cons]%elem_of_cons; try done.
        -- simplify_eq. rewrite list_lookup_insert_eq by lia.
           split_and!; try done; [by apply Hfr|].
           exists v, (mkContext CtxAmbient (ambient st)), (value j).
           by split_and!.
        -- assert (i <> index j).
           { intros ->. by apply elem_of_written_fail in Hin. }
           rewrite list_lookup_insert_ne by done. by apply Hfl.
      * intros i _ Hlti [? Hnin]%not_elem_of_cons.
        rewrite list_lookup_insert_ne by done. by apply Hfr.
      * intros _. right. split; [done|]. exists (index j), e.
        right. by left.
      * intros w' _. by left.
      * intros c i [?|[?|Hin]%elem_of_cons]%elem_of_cons; try done. eauto.
      * idle_moved Hw.
    + pose proof (Inv_pc_worker st w (WCall j) WSelect (wg st)) as Hpc'.
      specialize (fun tr => Hpc' tr Hinv Hw).
      inv_fields Hinv. split; st_simpl; try done.
      * intros _. rewrite length_insert.
        rewrite list_lookup_insert_ne by lia. done.
      * apply Hpc'. simpl. lia.
      * rewrite <- Hacct.
        apply (flying_insert _ _ _ WSelect) in Hw. simpl in Hw.
        rewrite <- Hw. solve_Permutation.
      * intros w' j' Hw'. worker_moved Hw'.
      * intros i v' [?|Hin]%elem_of_cons; try done.
        assert (i <> index j).
        { intros ->. by apply elem_of_written_store in Hin. }
        rewrite list_lookup_insert_ne by done. by apply Hst.
      * intros i e' [?|Hin]%elem_of_cons.
        -- simplify_eq. rewrite list_lookup_insert_eq by lia.
           split_and!; try done; [by apply Hfr|].
           exists v, (mkContext CtxAmbient (ambient st)), (value j).
           by split_and!.
        -- assert (i <> index j).
           { intros ->. by apply elem_of_written_fail in Hin. }
           rewrite list_lookup_insert_ne by done. by apply Hfl.
      * intros i _ Hlti [? Hnin]%not_elem_of_cons.
        rewrite list_lookup_insert_ne by done. by apply Hfr.
      * intros Hcd. destruct (Hcause Hcd) as [?|(? & i & e' & Hin)]; [by left|].
        right. split; [done|]. exists i, e'. by right.
      * intros w' Hw'. worker_moved Hw'.
      * intros c i [?|Hin]%elem_of_cons; try done. eauto.
      * idle_moved Hw.
  - (* the transform succeeded *)
    unfold store_result in Hstep.
    destruct (index j <? length (results st)) eqn:Hlt;
      [|apply Nat.ltb_ge in Hlt; lia].
    st_simpl. rewrite not_panicked in Hstep by done. simplify_eq.
    pose proof (Inv_pc_worker st w (WCall j) WSelect (wg st)) as Hpc'.
    specialize (fun tr => Hpc' tr Hinv Hw).
    inv_fields Hinv. split; st_simpl; try done.
    + intros _. by rewrite length_insert.
    + apply Hpc'. simpl. lia.
    + rewrite <- Hacct.
      apply (flying_insert _ _ _ WSelect) in Hw. simpl in Hw.
      rewrite <- Hw. solve_Permutation.
    + intros w' j' Hw'. worker_moved Hw'.
    + intros i v' [?|Hin]%elem_of_cons.
      * simplify_eq. rewrite list_lookup_insert_eq by lia.
        split_and!; try done; [by apply Hfr|].
        exists (mkContext CtxAmbient (ambient st)), (value j).
        by split_and!.
      * assert (i <> index j).
        { intros ->. by apply elem_of_written_store in Hin. }
        rewrite list_lookup_insert_ne by done. by apply Hst.
    + intros i e' [?|Hin]%elem_of_cons; try done.
      assert (i <> index j).
      { intros ->. by apply elem_of_written_fail in Hin. }
      rewrite list_lookup_insert_ne by done. by apply Hfl.
    + intros i _ Hlti [? Hnin]%not_elem_of_cons.
      rewrite list_lookup_insert_ne by done. by apply Hfr.
    + intros Hcd. destruct (Hcause Hcd) as [?|(? & i & e' & Hin)]; [by left|].
      right. split; [done|]. exists i, e'. by right.
    + intros w' Hw'. worker_moved Hw'.
    + intros c i [?|Hin]%elem_of_cons; try done. eauto.
    + idle_moved Hw.
Qed.

Lemma step_disp_send_Inv st st' :
  Inv h items st -> step_disp_send items st = Some st' -> Inv h items st'.
Proof.
  intros Hinv. unfold step_disp_send. intros Hstep.
  destruct (disp st) as [|d|] eqn:Hd; try done.
  assert (Hm : main st = MWait).
  { pose proof (inv_pc _ _ _ Hinv) as Hpc.
    destruct (main st); try done; destruct Hpc as (_ & _ & ? & ?); congruence. }
  destruct (items !! d) as [x|] eqn:Hx.
  - (* jobs <- job *)
    destruct (length (jobs st) <? length items); simplify_eq.
    inv_fields Hinv. rewrite Hd, Hm in *. destruct Hdisp as [Hk Hcl].
    destruct Hpc as (? & ? & ?).
    destruct Hbuf as [Hwin Hle]. pose proof (lookup_lt_Some _ _ _ Hx) as Hlt.
    split; st_simpl; rewrite ?Hm, ?Hd; cbn beta iota; try done.
    + split.
      * apply window_snoc; [done|]. unfold all_jobs.
        rewrite list_lookup_imap, <- Hk, Hx. done.
      * rewrite length_app. simpl. lia.
    + rewrite length_app. simpl. split; [lia|done].
    + intros w Hw. destruct (Hexit _ Hw) as [?|[? _]]; [by left|congruence].
  - (* the loop is over: close(jobs) *)
    simplify_eq. apply lookup_ge_None in Hx.
    inv_fields Hinv. rewrite Hd, Hm in *. destruct Hdisp as [Hk Hcl].
    destruct Hpc as (? & ? & ?).
    split; st_simpl; rewrite ?Hm; cbn beta iota; try done.
    + destruct Hbuf. split; [done|]. intros _. lia.
    + intros w Hw. destruct (Hexit _ Hw) as [?|[? _]]; [by left|congruence].
Qed.

Lemma step_disp_done_Inv st st' :
  Inv h items st -> step_disp_done items st = Some st' -> Inv h items st'.
Proof.
  intros Hinv. unfold step_disp_done. intros Hstep.
  destruct (disp st) as [|d|] eqn:Hd; try done.
  destruct (d <? length items); [|done].
  destruct (child_done st) eqn:Hcd; simplify_eq/=.
  assert (Hm : main st = MWait).
  { pose proof (inv_pc _ _ _ Hinv) as Hpc.
    destruct (main st); try done; destruct Hpc as (_ & _ & ? & ?); congruence. }
  inv_fields Hinv. rewrite Hd, Hm in *. destruct Hpc as (? & ? & ?).
  destruct Hdisp as [Hk Hcl].
  split; st_simpl; rewrite ?Hm; cbn beta iota; try done.
  - split; [done|]. by rewrite Hcd.
  - intros w Hw. by left.
Qed.

Lemma step_env_cancel_Inv st st' e :
  Inv h items st -> step_env_cancel e st = Some st' -> Inv h items st'.
Proof.
  intros Hinv. unfold step_env_cancel. intros Hstep.
  destruct (ambient st) eqn:Ha; simplify_eq.
  inv_fields Hinv. split; st_simpl; try done.
  - intros i v Hin. destruct (Hst _ _ Hin) as (? & ? & Hp).
    split_and!; try done. by eapply produced_mono; [|exact Hp].
  - intros i e' Hin. destruct (Hfl _ _ Hin) as (? & ? & v & Hp).
    split_and!; try done. exists v. by eapply produced_mono; [|exact Hp].
  - intros _. by left.
Qed.

Lemma step_env_propagate_Inv st st' :
  Inv h items st -> step_env_propagate st = Some st' -> Inv h items st'.
Proof.
  intros Hinv. unfold step_env_propagate. intros Hstep.
  destruct (ambient st) eqn:Ha; [|done].
  destruct (child_done st) eqn:Hcd; simplify_eq.
  inv_fields Hinv. split; st_simpl; try done.
  - destruct (disp st); destruct Hdisp as [Hk Hc]; split; done.
  - intros _. left. by rewrite Ha.
  - intros w _. by left.
Qed.

(** Every step from a running state leads to a running state that
    satisfies the invariant, or ends [Execute]. *)
Lemma step_Inv st a st' :
  Inv h items st -> step h items a st = Some st' ->
  Inv h items st' \/ Ended h items st'.
Proof.
  intros Hinv. unfold step. rewrite (inv_running _ _ _ Hinv).
  destruct a; intros Hstep.
  - destruct (finished st') eqn:Hfin.
    + right. split; [done|]. by exists st.
    + left. by eapply step_main_Inv.
  - left. by eapply step_worker_done_Inv.
  - left. by eapply step_worker_recv_Inv.
  - left. by eapply step_worker_ret_Inv.
  - left. by eapply step_disp_send_Inv.
  - left. by eapply step_disp_done_Inv.
  - left. by eapply step_env_cancel_Inv.
  - left. by eapply step_env_propagate_Inv.
Qed.

(** ** Every step makes the measure smaller *)

Lemma main_rem_pos st : finished st = false -> 1 <= main_rem h items (main st).
Proof. unfold finished. destruct (main st); simpl; try done; lia. Qed.

Lemma disp_rem_le d : disp_rem items d <= 3 * length items + 1.
Proof. destruct d; simpl; lia. Qed.

Lemma worker_rem_le ws w x :
  ws !! w = Some x -> worker_rem x <= sum_list_with worker_rem ws.
Proof. intros Hw. apply sum_list_with_in. by eapply list_elem_of_lookup_2. Qed.

Ltac measure_simpl :=
  unfold measure, worker_exit, wg_Add, store_err, store_result; st_simpl;
  repeat match goal with
  | |- context [if ?b then _ else _] => destruct b; st_simpl
  end.

Lemma step_measure st a st' :
  step h items a st = Some st' -> measure h items st' < measure h items st.
Proof.
  unfold step. destruct (finished st) eqn:Hfin; [done|].
  pose proof (main_rem_pos _ Hfin) as Hpos.
  pose proof (disp_rem_le (disp st)) as Hdr.
  destruct a; simpl.
  - unfold step_main. destruct (main st) eqn:Hm; try done.
    + destruct (length items =? 0); intros; simplify_eq;
        unfold measure; st_simpl; rewrite Hm; simpl;
        destruct (ambient st), (child_done st); lia.
    + unfold wg_Add. destruct (wg st + numWorkers h items <? 0)%Z; st_simpl;
        rewrite ?Hm; intros; simplify_eq;
        unfold measure; st_simpl; rewrite Hm; simpl; lia.
    + destruct (Z.of_nat i <? numWorkers h items)%Z eqn:Hlt; intros; simplify_eq;
        unfold measure; st_simpl; rewrite Hm, ?sum_list_with_app; simpl; lia.
    + destruct (wg st =? 0)%Z; [|done]. intros; simplify_eq.
      unfold finish. destruct (errors_Join _);
        unfold measure; st_simpl; rewrite Hm; simpl;
        destruct (child_done st); lia.
  - unfold step_worker_done.
    destruct (workers st !! w) as [[| |]|] eqn:Hw; try done.
    destruct (child_done st) eqn:Hcd; [|done]. intros; simplify_eq.
    pose proof (worker_rem_insert _ _ _ WExited Hw).
    pose proof (worker_rem_le _ _ _ Hw).
    measure_simpl; rewrite ?Hcd; simpl in *; lia.
  - unfold step_worker_recv.
    destruct (workers st !! w) as [[| |]|] eqn:Hw; try done.
    destruct (jobs st) as [|j rest] eqn:Hb.
    + destruct (closed st); [|done]. intros; simplify_eq.
      pose proof (worker_rem_insert _ _ _ WExited Hw).
      pose proof (worker_rem_le _ _ _ Hw).
      measure_simpl; rewrite ?Hb; simpl in *; lia.
    + intros; simplify_eq.
      pose proof (worker_rem_insert _ _ _ (WCall j) Hw).
      pose proof (worker_rem_le _ _ _ Hw).
      measure_simpl; rewrite ?Hb; simpl in *; lia.
  - unfold step_worker_ret.
    destruct (workers st !! w) as [[|j|]|] eqn:Hw; try done.
    pose proof (worker_rem_insert _ _ _ WExited Hw).
    pose proof (worker_rem_insert _ _ _ WSelect Hw).
    pose proof (worker_rem_le _ _ _ Hw).
    destruct (mapFunc h _ (value j)) as [v [e|]].
    + unfold store_err. destruct (index j <? length (errs st)); st_simpl.
      * rewrite not_panicked by done.
        destruct (stopOnError h); intros; simplify_eq;
          measure_simpl; simpl in *; destruct (child_done st); lia.
      * intros; simplify_eq. measure_simpl; simpl in *; lia.
    + unfold store_result. destruct (index j <? length (results st)); st_simpl.
      * rewrite not_panicked by done. intros; simplify_eq.
        measure_simpl; simpl in *; lia.
      * intros; simplify_eq. measure_simpl; simpl in *; lia.
  - unfold step_disp_send. destruct (disp st) as [|d|] eqn:Hd; try done.
    destruct (items !! d) as [x|] eqn:Hx.
    + pose proof (lookup_lt_Some _ _ _ Hx).
      destruct (length (jobs st) <? length items); [|done]. intros; simplify_eq.
      unfold measure; st_simpl. rewrite Hd, length_app. simpl. lia.
    + intros; simplify_eq. unfold measure; st_simpl. rewrite Hd. simpl. lia.
  - unfold step_disp_done. destruct (disp st) as [|d|] eqn:Hd; try done.
    destruct (_ && _); [|done]. intros; simplify_eq.
    unfold measure; st_simpl. rewrite Hd. simpl. lia.
  - unfold step_env_cancel. destruct (ambient st) eqn:Ha; [done|].
    intros; simplify_eq. unfold measure; st_simpl. rewrite Ha. lia.
  - unfold step_env_propagate. destruct (ambient st) eqn:Ha; [|done].
    destruct (child_done st) eqn:Hcd; [done|].
    intros; simplify_eq. unfold measure; st_simpl. rewrite Hcd. lia.
Qed.

(** ** The invariant holds in every reachable state *)

Lemma Inv_init ctx : Inv h items (Execute_init ctx).
Proof.
  split; simpl; try done.
  - split; [done|lia].
  - intros i v ?%elem_of_nil; done.
  - intros i e ?%elem_of_nil; done.
  - intros c i ?%elem_of_nil; done.
Qed.

Lemma reachable_Inv ctx st :
  reachable h items ctx st -> Inv h items st \/ Ended h items st.
Proof.
  induction 1 as [|st a st' _ [Hinv|[Hfin _]] Hstep].
  - left. apply Inv_init.
  - by eapply step_Inv.
  - unfold step in Hstep. by rewrite Hfin in Hstep.
Qed.

Lemma run_reachable ctx sched st st' :
  reachable h items ctx st -> run h items sched st = Some st' ->
  reachable h items ctx st'.
Proof.
  revert st. induction sched as [|a sched IH]; intros st Hst; simpl.
  - by intros [= <-].
  - destruct (step h items a st) as [st1|] eqn:Hstep; [|done].
    intros Hrun. eapply IH; [|done]. by eapply reach_step.
Qed.

(** ** Progress: a running state is never stuck *)

Lemma live_worker ws :
  exited ws < length ws -> exists w x, ws !! w = Some x /\ x <> WExited.
Proof.
  induction ws as [|y ws IH]; simpl; [lia|]. intros Hlt.
  destruct y.
  - by exists 0, WSelect.
  - by exists 0, (WCall j).
  - destruct IH as (w & x & Hw & Hx); [lia|]. by exists (S w), x.
Qed.

Lemma Inv_progress st :
  Inv h items st ->
  exists a st', is_env a = false /\ step h items a st = Some st'.
Proof.
  intros Hinv. pose proof (inv_running _ _ _ Hinv) as Hrun.
  pose proof (inv_pc _ _ _ Hinv) as Hpc.
  pose proof (inv_disp _ _ _ Hinv) as Hdisp.
  unfold step. rewrite Hrun.
  destruct (main st) eqn:Hm; try done.
  - exists AMain. unfold step_main. rewrite Hm.
    destruct (length items =? 0); eauto.
  - exists AMain. unfold step_main. rewrite Hm.
    destruct (main (wg_Add _ st)); eauto.
  - exists AMain. unfold step_main. rewrite Hm.
    destruct (Z.of_nat i <? _)%Z; eauto.
  - destruct Hpc as (Hlen & Hwg & Hd).
    destruct (decide (wg st = 0%Z)) as [Hz|Hnz].
    { exists AMain. unfold step_main. rewrite Hm, Hz. simpl. eauto. }
    pose proof (exited_le (workers st)).
    destruct (live_worker (workers st)) as (w & x & Hw & Hx); [lia|].
    destruct x as [|j|]; [| |done].
    + (* a worker waits in its select *)
      destruct (child_done st) eqn:Hcd.
      { exists (AWorkerDone w). unfold step_worker_done.
        rewrite Hw, Hcd. eauto. }
      destruct (jobs st) as [|j rest] eqn:Hb.
      2:{ exists (AWorkerRecv w). unfold step_worker_recv.
          rewrite Hw, Hb. eauto. }
      destruct (closed st) eqn:Hcl.
      { exists (AWorkerRecv w). unfold step_worker_recv.
        rewrite Hw, Hb, Hcl. eauto. }
      exists ADispSend. unfold step_disp_send.
      destruct (disp st) as [|d|]; [done| |].
      * destruct (items !! d) as [x|] eqn:Hx'; [|eauto].
        apply lookup_lt_Some in Hx'. rewrite Hb. simpl.
        destruct (0 <? length items) eqn:Hlt; [eauto|].
        apply Nat.ltb_ge in Hlt. lia.
      * destruct Hdisp. congruence.
    + (* a worker is inside the transform *)
      exists (AWorkerRet w). unfold step_worker_ret. rewrite Hw.
      destruct (mapFunc h _ _) as [v [e|]].
      * destruct (main (store_err _ _ _)); destruct (stopOnError h); eauto.
      * destruct (main (store_result _ _ _)); eauto.
Qed.

(** ** [Execute] always ends *)

Lemma inevitably_mono (P Q : state -> Prop) st :
  (forall st', P st' -> Q st') ->
  inevitably h items P st -> inevitably h items Q st.
Proof.
  intros HPQ. induction 1 as [st HP|st Hprog _ IH].
  - apply inev_now. auto.
  - apply inev_step; auto.
Qed.

Theorem Execute_ends st :
  Inv h items st -> inevitably h items (Ended h items) st.
Proof.
  remember (measure h items st) as n eqn:Hn. revert st Hn.
  induction n as [n IH] using lt_wf_ind. intros st -> Hinv.
  apply inev_step; [by apply Inv_progress|].
  intros a st' Hstep. pose proof (step_measure _ _ _ Hstep) as Hlt.
  destruct (step_Inv _ _ _ Hinv Hstep) as [Hinv'|Hend].
  - by eapply IH.
  - by apply inev_now.
Qed.

(** ** The states in which [Execute] has ended *)

Lemma Ended_cases st :
  Ended h items st ->
  (exists st0, Inv h items st0 /\ main st0 = MStart /\ items = [] /\
               st = set_main (MReturned None None) st0) \/
  (exists st0, Inv h items st0 /\ main st0 = MAdd /\
               (numWorkers h items < 0)%Z /\ st = panic st0) \/
  (exists st0, Inv h items st0 /\ main st0 = MWait /\ wg st0 = 0%Z /\
               st = finish st0).
Proof.
  intros (Hfin & st0 & Hinv & Hstep). unfold step_main in Hstep.
  pose proof (inv_pc _ _ _ Hinv) as Hpc.
  destruct (main st0) eqn:Hm; try done.
  - destruct (length items =? 0) eqn:Hlen; simplify_eq; try done.
    left. exists st0. split_and!; try done.
    apply Nat.eqb_eq in Hlen. by destruct items.
  - destruct Hpc as (_ & Hwg & _). unfold wg_Add in Hstep.
    rewrite Hwg in Hstep.
    destruct (0 + numWorkers h items <? 0)%Z eqn:Hneg;
      st_simpl; rewrite ?Hm in Hstep; simplify_eq; try done.
    right. left. exists st0. split_and!; try done. lia.
  - destruct (Z.of_nat i <? numWorkers h items)%Z; by simplify_eq.
  - destruct (wg st0 =? 0)%Z eqn:Hz; simplify_eq.
    right. right. exists st0. split_and!; try done. lia.
Qed.

Lemma elem_of_non_nil (l : list (option E)) e : e ∈ non_nil l <-> Some e ∈ l.
Proof.
  induction l as [|[e'|] l IH]; simpl.
  - by rewrite !elem_of_nil.
  - rewrite !elem_of_cons, IH. split; intros [?|?]; simplify_eq; auto.
  - rewrite elem_of_cons, IH. split; [auto|]. by intros [?|?].
Qed.

Lemma errors_Join_Some (l : list (option E)) agg :
  errors_Join l = Some agg -> forall e, e ∈ agg <-> Some e ∈ l.
Proof.
  unfold errors_Join. intros Hj e. rewrite <- elem_of_non_nil.
  destruct (non_nil l); by simplify_eq.
Qed.

Lemma errors_Join_None (l : list (option E)) :
  errors_Join l = None -> forall e, Some e ∉ l.
Proof.
  unfold errors_Join. intros Hj e. rewrite <- elem_of_non_nil.
  destruct (non_nil l); [apply not_elem_of_nil|done].
Qed.

Lemma written_event tr i :
  i ∈ written tr -> (exists v, EvStore i v ∈ tr) \/ (exists e, EvFail i e ∈ tr).
Proof.
  induction tr as [|ev tr IH]; simpl; [by intros ?%elem_of_nil|].
  assert (Hstep : i ∈ written tr ->
    (exists v, EvStore i v ∈ ev :: tr) \/ (exists e, EvFail i e ∈ ev :: tr)).
  { intros [[v ?]|[e ?]]%IH; [left; exists v|right; exists e]; by right. }
  destruct ev; try done.
  - intros [->|?]%elem_of_cons; [|auto]. left. exists v. by left.
  - intros [->|?]%elem_of_cons; [|auto]. right. exists e. by left.
Qed.

(** An error sits in the error slots exactly when a worker put it there. *)
Lemma Inv_errs st i e :
  Inv h items st -> main st <> MStart ->
  errs st !! i = Some (Some e) -> EvFail i e ∈ trace st.
Proof.
  intros Hinv Hne Hi. inv_fields Hinv.
  destruct (Hshape Hne) as (_ & Hlen & HslotN & _).
  pose proof (lookup_lt_Some _ _ _ Hi) as Hlt.
  destruct (decide (i = length items)) as [->|Hn]; [congruence|].
  destruct (decide (i ∈ written (trace st))) as [Hin|Hnin].
  - apply written_event in Hin as [[v Hv]|[e' He']].
    + apply Hst in Hv as (_ & ? & _). congruence.
    + pose proof (Hfl _ _ He') as (? & _). by simplify_eq.
  - destruct (Hfr i Hne) as [_ ?]; [lia|done|congruence].
Qed.

Lemma flying_all_exited ws : exited ws = length ws -> flying ws = [].
Proof.
  induction ws as [|x ws IH]; simpl; [done|].
  pose proof (exited_le ws). destruct x; try lia. intros. apply IH. lia.
Qed.

(** When [wg.Wait()] lets [Execute] through, every started worker has
    returned and every job taken from the channel has been recorded. *)
Lemma Done_workers st :
  Inv h items st -> main st = MWait -> wg st = 0%Z ->
  exited (workers st) = length (workers st) /\
  Z.of_nat (length (workers st)) = numWorkers h items /\
  written (trace st) ≡ₚ seq 0 (invoked (trace st)).
Proof.
  intros Hinv Hm Hwg. pose proof (inv_pc _ _ _ Hinv) as Hpc.
  pose proof (inv_acct _ _ _ Hinv) as Hacct.
  rewrite Hm in Hpc. destruct Hpc as (Hlen & Hwg' & _).
  assert (Hall : exited (workers st) = length (workers st)) by lia.
  split_and!; try done.
  by rewrite (flying_all_exited _ Hall), app_nil_r in Hacct.
Qed.

(** With at least one worker and a coordination context that was never
    cancelled, every job has been taken from the channel. *)
Lemma Done_complete st :
  Inv h items st -> main st = MWait -> wg st = 0%Z ->
  (1 <= numWorkers h items)%Z -> child_done st = false ->
  invoked (trace st) = length items.
Proof.
  intros Hinv Hm Hwg Hnw Hcd.
  destruct (Done_workers _ Hinv Hm Hwg) as (Hall & Hlen & _).
  destruct (workers st) as [|x ws] eqn:Hws; [simpl in Hlen; lia|].
  assert (x = WExited) as ->.
  { eapply (exited_all (x :: ws) Hall 0). done. }
  destruct (inv_exit _ _ _ Hinv 0) as [?|[Hcl Hb]];
    [by rewrite Hws|congruence|].
  pose proof (inv_disp _ _ _ Hinv) as Hdisp.
  destruct (disp st); destruct Hdisp as [Hk Hc]; try congruence.
  specialize (Hc Hcd). rewrite Hb in Hc. simpl in Hc. lia.
Qed.

(** The coordination context is cancelled only by the caller's context or,
    under stop-on-error, by a failure. *)
Lemma Inv_child_live st :
  Inv h items st -> ambient st = None ->
  (stopOnError h = false \/ forall i e, EvFail i e ∉ trace st) ->
  child_done st = false.
Proof.
  intros Hinv Ha Hno. destruct (child_done st) eqn:Hcd; [|done].
  destruct (inv_cause _ _ _ Hinv Hcd) as [?|(Hstop & i & e & Hin)]; [done|].
  destruct Hno as [?|Hno]; [congruence|]. by apply Hno in Hin.
Qed.

Lemma numWorkers_min :
  numWorkers h items = Z.min (concurrency h) (Z.of_nat (length items)).
Proof. unfold numWorkers. simpl. destruct (_ <? _)%Z eqn:Hlt; lia. Qed.

Lemma produced_live i v err :
  produced h items None i v err ->
  exists x, items !! i = Some x /\
            mapFunc h (mkContext CtxAmbient None) x = (v, err).
Proof.
  intros ([which cerr] & x & Hx & Hc & Hlive & Hf). simpl in *.
  rewrite Hc, (Hlive eq_refl) in Hf. eauto.
Qed.

(** What [errors.Join] is handed at the end of [Execute]. *)
Lemma Join_members st agg :
  Inv h items st -> main st <> MStart ->
  errors_Join (errs st ++ [ambient st]) = Some agg ->
  forall e, e ∈ agg <-> (exists i, EvFail i e ∈ trace st) \/ ambient st = Some e.
Proof.
  intros Hinv Hne Hj e. rewrite (errors_Join_Some _ _ Hj), elem_of_app.
  rewrite list_elem_of_singleton. split; intros [Hin|Hin]; auto.
  - apply list_elem_of_lookup in Hin as [i Hi]. left. exists i.
    by eapply Inv_errs.
  - destruct Hin as [i Hi]. left.
    apply (inv_failed _ _ _ Hinv) in Hi as [Hi _].
    by eapply list_elem_of_lookup_2.
Qed.

Lemma Join_nil st :
  Inv h items st -> main st <> MStart ->
  errors_Join (errs st ++ [ambient st]) = None ->
  (forall i e, EvFail i e ∉ trace st) /\ ambient st = None.
Proof.
  intros Hinv Hne Hj. pose proof (errors_Join_None _ Hj) as Hno. split.
  - intros i e Hi. apply (inv_failed _ _ _ Hinv) in Hi as [Hi _].
    apply (Hno e), elem_of_app. left. by eapply list_elem_of_lookup_2.
  - destruct (ambient st) as [e|] eqn:Ha; [|done].
    destruct (Hno e). apply elem_of_app. right. by left.
Qed.

Lemma Join_Some_inhabited (l : list (option E)) agg :
  errors_Join l = Some agg -> exists e, e ∈ agg.
Proof.
  unfold errors_Join. destruct (non_nil l) as [|e rest]; [done|].
  intros [= <-]. exists e. by left.
Qed.

(** The fields of the state after [finish]. *)
Lemma finish_fields st :
  workers (finish st) = workers st /\
  trace (finish st) = EvCancel :: trace st /\
  results (finish st) = results st /\
  errs (finish st) = errs st ++ [ambient st] /\
  ambient (finish st) = ambient st /\
  main (finish st) =
    match errors_Join (errs st ++ [ambient st]) with
    | Some err => MReturned None (Some err)
    | None => MReturned (Some (results st)) None
    end.
Proof. unfold finish. by destruct (errors_Join _). Qed.

Lemma in_flight_le st : in_flight st <= length (workers st).
Proof.
  unfold in_flight. induction (workers st) as [|x ws IH]; simpl; [done|].
  destruct (is_call x); simpl; lia.
Qed.

(** ** What [Execute] returns *)

Lemma no_failure_recorded st :
  (forall x, x ∈ items -> (mapFunc h (mkContext CtxAmbient None) x).2 = None) ->
  Inv h items st -> ambient st = None -> forall i e, EvFail i e ∉ trace st.
Proof.
  intros Hok Hinv Ha i e Hin.
  apply (inv_failed _ _ _ Hinv) in Hin as (_ & _ & v & Hp).
  rewrite Ha in Hp. apply produced_live in Hp as (x & Hx & Hf).
  apply list_elem_of_lookup_2, Hok in Hx. rewrite Hf in Hx. done.
Qed.

(** With at least one worker and no cancellation, every index is written. *)
Lemma Done_all_written st i :
  Inv h items st -> main st = MWait -> wg st = 0%Z ->
  (1 <= numWorkers h items)%Z -> child_done st = false ->
  i < length items -> i ∈ written (trace st).
Proof.
  intros Hinv Hm Hwg Hnw Hcd Hi.
  destruct (Done_workers _ Hinv Hm Hwg) as (_ & _ & Hperm).
  rewrite Hperm, (Done_complete _ Hinv Hm Hwg Hnw Hcd).
  apply elem_of_seq. lia.
Qed.

Lemma Ended_all_succeed st :
  items <> [] -> (1 <= concurrency h)%Z ->
  (forall x, x ∈ items -> (mapFunc h (mkContext CtxAmbient None) x).2 = None) ->
  Ended h items st ->
  exists out err, main st = MReturned out err /\
    (ambient st = None ->
     out = Some ((fun x => (mapFunc h (mkContext CtxAmbient None) x).1) <$> items)
     /\ err = None).
Proof.
  intros Hne Hconc Hok Hend.
  assert (Hnw : (1 <= numWorkers h items)%Z).
  { rewrite numWorkers_min. destruct items; [done|]. simpl length. lia. }
  destruct (Ended_cases _ Hend) as
    [(st0 & _ & _ & ? & _)|[(st0 & _ & _ & ? & _)|(st0 & Hinv & Hm & Hwg & ->)]];
    [done|lia|].
  destruct (finish_fields st0) as (_ & _ & _ & _ & -> & ->).
  assert (Hms : main st0 <> MStart) by (by rewrite Hm).
  destruct (errors_Join _) as [agg|] eqn:Hj.
  - exists None, (Some agg). split; [done|]. intros Ha.
    destruct (Join_Some_inhabited _ _ Hj) as [e He].
    apply (Join_members _ _ Hinv Hms Hj) in He as [[i Hi]|?]; [|congruence].
    by apply (no_failure_recorded _ Hok Hinv Ha) in Hi.
  - exists (Some (results st0)), None. split; [done|]. intros Ha.
    split; [|done]. f_equal.
    destruct (Join_nil _ Hinv Hms Hj) as [Hnofail _].
    assert (Hcd : child_done st0 = false) by (apply Inv_child_live; auto).
    destruct (inv_shape _ _ _ Hinv Hms) as (Hlen & _).
    apply list_eq. intros i. rewrite list_lookup_fmap.
    destruct (decide (i < length items)) as [Hi|Hi].
    + pose proof (Done_all_written _ i Hinv Hm Hwg Hnw Hcd Hi) as Hw.
      apply written_event in Hw as [[v Hv]|[e He]]; [|by apply Hnofail in He].
      apply (inv_stored _ _ _ Hinv) in Hv as (-> & _ & Hp).
      rewrite Ha in Hp. apply produced_live in Hp as (x & -> & Hf).
      simpl. by rewrite Hf.
    + rewrite !lookup_ge_None_2 by lia. done.
Qed.

Lemma numWorkers_nonneg :
  (0 <= concurrency h)%Z -> (0 <= numWorkers h items)%Z.
Proof. rewrite numWorkers_min. lia. Qed.

Lemma Ended_failure st :
  items <> [] -> (0 <= concurrency h)%Z ->
  Ended h items st ->
  exists out err, main st = MReturned out err /\
    ((exists i e, EvFail i e ∈ trace st) \/ ambient st <> None ->
     out = None /\
     exists agg, err = Some agg /\
       (forall i e, EvFail i e ∈ trace st -> e ∈ agg) /\
       (forall e, ambient st = Some e -> e ∈ agg)).
Proof.
  intros Hne Hconc Hend. pose proof (numWorkers_nonneg Hconc) as Hnw.
  destruct (Ended_cases _ Hend) as
    [(st0 & _ & _ & ? & _)|[(st0 & _ & _ & ? & _)|(st0 & Hinv & Hm & Hwg & ->)]];
    [done|lia|].
  destruct (finish_fields st0) as (_ & -> & _ & _ & -> & ->).
  assert (Hms : main st0 <> MStart) by (by rewrite Hm).
  destruct (errors_Join _) as [agg|] eqn:Hj.
  - exists None, (Some agg). split; [done|]. intros _. split; [done|].
    exists agg. split; [done|].
    pose proof (Join_members _ _ Hinv Hms Hj) as Hagg. split.
    + intros i e [?|Hin]%elem_of_cons; [done|]. apply Hagg. eauto.
    + intros e Ha. apply Hagg. auto.
  - exists (Some (results st0)), None. split; [done|].
    destruct (Join_nil _ Hinv Hms Hj) as [Hno Ha].
    intros [(i & e & [?|Hin]%elem_of_cons)|?]; [done| |done].
    by apply Hno in Hin.
Qed.

Lemma Ended_collect_all st :
  items <> [] -> (1 <= concurrency h)%Z -> stopOnError h = false ->
  Ended h items st ->
  exists out err, main st = MReturned out err /\
    (ambient st = None ->
     (forall i, i < length items -> i ∈ written (trace st)) /\
     (forall i x e, items !! i = Some x ->
        (mapFunc h (mkContext CtxAmbient None) x).2 = Some e ->
        EvFail i e ∈ trace st)) /\
    (forall i e, EvFail i e ∈ trace st ->
     out = None /\ exists agg, err = Some agg /\ e ∈ agg).
Proof.
  intros Hne Hconc Hstop Hend.
  assert (Hnw : (1 <= numWorkers h items)%Z).
  { rewrite numWorkers_min. destruct items; [done|]. simpl length. lia. }
  destruct (Ended_failure _ Hne ltac:(lia) Hend) as (out & err & Hmain & Hfail).
  exists out, err. split; [done|].
  destruct (Ended_cases _ Hend) as
    [(st0 & _ & _ & ? & _)|[(st0 & _ & _ & ? & _)|(st0 & Hinv & Hm & Hwg & ->)]];
    [done|lia|].
  destruct (finish_fields st0) as (_ & Htr & _ & _ & Hamb & _).
  rewrite Htr, Hamb in *. clear Htr Hamb. split.
  - intros Ha.
    assert (Hcd : child_done st0 = false) by (apply Inv_child_live; auto).
    assert (Hall : forall i, i < length items -> i ∈ written (trace st0)).
    { intros i Hi. by apply Done_all_written. }
    split; [done|]. intros i x e Hx Hf.
    pose proof (lookup_lt_Some _ _ _ Hx) as Hi.
    right. apply Hall, written_event in Hi as [[v Hv]|[e' He']].
    + apply (inv_stored _ _ _ Hinv) in Hv as (_ & _ & Hp).
      rewrite Ha in Hp. apply produced_live in Hp as (x' & Hx' & Hf').
      simplify_eq. by rewrite Hf' in Hf.
    + pose proof He' as Hin.
      apply (inv_failed _ _ _ Hinv) in He' as (_ & _ & v & Hp).
      rewrite Ha in Hp. apply produced_live in Hp as (x' & Hx' & Hf').
      simplify_eq. rewrite Hf' in Hf. by simplify_eq/=.
  - intros i e Hin. destruct Hfail as (-> & agg & -> & Hagg & _); [eauto|].
    split; [done|]. exists agg. eauto.
Qed.

Lemma Ended_empty st :
  items = [] -> Ended h items st ->
  main st = MReturned None None /\ workers st = [] /\ trace st = [].
Proof.
  intros Hnil Hend.
  destruct (Ended_cases _ Hend) as
    [(st0 & Hinv & Hm & _ & ->)|[(st0 & Hinv & Hm & _)|(st0 & Hinv & Hm & _)]].
  - pose proof (inv_pc _ _ _ Hinv) as Hpc. rewrite Hm in Hpc.
    by destruct Hpc as (? & _ & _ & ?).
  - destruct (inv_shape _ _ _ Hinv) as (_ & _ & _ & ?); [by rewrite Hm|done].
  - destruct (inv_shape _ _ _ Hinv) as (_ & _ & _ & ?); [by rewrite Hm|done].
Qed.



(** The error slots when [Execute] returns on a non-empty input. *)
Lemma Ended_errs st out err :
  Ended h items st -> items <> [] -> main st = MReturned out err ->
  length (errs st) = length items + 2 /\
  errs st !! length items = Some None /\
  errs st !! (length items + 1) = Some (ambient st).
Proof.
  intros Hend Hne Hmain.
  destruct (Ended_cases _ Hend) as
    [(st0 & _ & _ & ? & _)|[(st0 & _ & _ & _ & ->)|(st0 & Hinv & Hm & Hwg & ->)]];
    [done|done|].
  destruct (finish_fields st0) as (_ & _ & _ & -> & -> & _).
  destruct (inv_shape _ _ _ Hinv) as (_ & Hlen & HslotN & _); [by rewrite Hm|].
  rewrite length_app. simpl. split_and!.
  - lia.
  - by apply lookup_app_l_Some.
  - rewrite lookup_app_r by lia.
    by replace (length items + 1 - length (errs st0)) with 0 by lia.
Qed.

(** ** Facts that hold in every reachable state *)

Lemma Ended_origin st :
  Ended h items st ->
  exists st0, Inv h items st0 /\ workers st = workers st0 /\
    results st = results st0 /\ ambient st = ambient st0 /\
    ((trace st = trace st0 /\ errs st = errs st0) \/
     (trace st = EvCancel :: trace st0 /\ errs st = errs st0 ++ [ambient st0])).
Proof.
  intros Hend.
  destruct (Ended_cases _ Hend) as
    [(st0 & Hinv & _ & _ & ->)|[(st0 & Hinv & _ & _ & ->)|(st0 & Hinv & _ & _ & ->)]];
    exists st0.
  - split_and!; try done. by left.
  - split_and!; try done. by left.
  - destruct (finish_fields st0) as (-> & -> & -> & -> & -> & _).
    split_and!; try done. by right.
Qed.

Lemma reachable_slots ctx st :
  reachable h items ctx st ->
  (forall c i, EvInvoke c i ∈ trace st -> c = CtxAmbient) /\
  (forall i v, EvStore i v ∈ trace st ->
     results st !! i = Some v /\ errs st !! i = Some None /\
     produced h items (ambient st) i v None) /\
  (forall i e, EvFail i e ∈ trace st ->
     errs st !! i = Some (Some e) /\ results st !! i = Some go_zero /\
     exists v, produced h items (ambient st) i v (Some e)).
Proof.
  intros [Hinv|Hend]%reachable_Inv.
  - split_and!; [apply (inv_ctx _ _ _ Hinv)|apply (inv_stored _ _ _ Hinv)|
                 apply (inv_failed _ _ _ Hinv)].
  - destruct (Ended_origin _ Hend) as (st0 & Hinv & _ & -> & -> & Hcase).
    assert (Htr : forall ev, ev <> EvCancel -> ev ∈ trace st -> ev ∈ trace st0).
    { intros ev Hev. destruct Hcase as [[-> _]|[-> _]]; [done|].
      by intros [?|?]%elem_of_cons. }
    assert (Herr : forall i x, errs st0 !! i = Some x -> errs st !! i = Some x).
    { intros i x Hi. destruct Hcase as [[_ ->]|[_ ->]]; [done|].
      by apply lookup_app_l_Some. }
    split_and!.
    + intros c i Hin%Htr; [|done]. by eapply inv_ctx.
    + intros i v Hin%Htr; [|done].
      apply (inv_stored _ _ _ Hinv) in Hin as (? & ? & ?). auto.
    + intros i e Hin%Htr; [|done].
      apply (inv_failed _ _ _ Hinv) in Hin as (? & ? & ?). auto.
Qed.

Lemma reachable_workers ctx st :
  (0 <= concurrency h)%Z -> reachable h items ctx st ->
  (Z.of_nat (length (workers st)) <= numWorkers h items)%Z /\
  (main st = MWait -> Z.of_nat (length (workers st)) = numWorkers h items).
Proof.
  intros Hconc Hreach. pose proof (numWorkers_nonneg Hconc) as Hnw.
  assert (Hinv : forall st0, Inv h items st0 ->
            (Z.of_nat (length (workers st0)) <= numWorkers h items)%Z /\
            (main st0 = MWait ->
             Z.of_nat (length (workers st0)) = numWorkers h items)).
  { intros st0 Hinv. pose proof (inv_pc _ _ _ Hinv) as Hpc.
    destruct (main st0); try done.
    - destruct Hpc as [-> _]. simpl. split; [lia|done].
    - destruct Hpc as [-> _]. simpl. split; [lia|done].
    - split; [lia|done].
    - split; [lia|]. by destruct Hpc. }
  apply reachable_Inv in Hreach as [?|[Hfin Hend]]; [auto|].
  destruct (Ended_origin _ (conj Hfin Hend)) as (st0 & Hinv0 & -> & _).
  split; [by apply Hinv|]. intros Hm. unfold finished in Hfin.
  by rewrite Hm in Hfin.
Qed.

End SlicexFacts.

(* ===================================================================== *)
(** * What [Execute] guarantees *)
(* ===================================================================== *)

Section ExecuteProperties.
Context {T R E : Type} `{GoZero R}.
Implicit Types (h : @MapConcurrentHandler T R E) (items : list T).
Implicit Types (ctx : @Context E) (st : @state T R E).

Lemma Execute_inevitably h items ctx (P : state -> Prop) :
  (forall st, Ended h items st -> P st) ->
  inevitably h items P (Execute_init ctx).
Proof.
  intros HP. eapply inevitably_mono; [exact HP|].
  apply Execute_ends, Inv_init.
Qed.

Lemma run_Execute_reachable h items ctx sched st :
  run h items sched (Execute_init ctx) = Some st -> reachable h items ctx st.
Proof. apply run_reachable, reach_init. Qed.

(** A run that has ended went through the states [inevitably] speaks of:
    what is inevitable for the ended states holds at the end of every
    schedule. *)
Lemma inevitably_run h items (P : state -> Prop) st sched st' :
  inevitably h items P st ->
  (forall s, P s -> finished s = true) ->
  run h items sched st = Some st' -> finished st' = true -> P st'.
Proof.
  intros Hinev HP. revert sched.
  induction Hinev as [st HPst|st Hprog _ IH]; intros sched Hrun Hfin.
  - destruct sched as [|a sched]; simpl in Hrun; [by simplify_eq|].
    unfold step in Hrun. by rewrite (HP _ HPst) in Hrun.
  - destruct sched as [|a sched]; simpl in Hrun.
    + simplify_eq. destruct Hprog as (a & st1 & _ & Hstep).
      unfold step in Hstep. by rewrite Hfin in Hstep.
    + destruct (step h items a st) as [st1|] eqn:Hstep; [|done]. eauto.
Qed.

(** The error slots: [len(items) + 1] of them while the workers run, the
    last one never assigned; one more when [Execute] returns, holding the
    context's error. *)
Lemma Execute_errs_while_running h items ctx sched st :
  run h items sched (Execute_init ctx) = Some st ->
  finished st = false -> main st <> MStart ->
  length (errs st) = length items + 1 /\ errs st !! length items = Some None.
Proof.
  intros [Hinv|[Hfin _]]%run_Execute_reachable%reachable_Inv Hrun Hm;
    [|congruence].
  destruct (inv_shape _ _ _ Hinv Hm) as (_ & Hlen & HslotN & _).
  split; [lia|done].
Qed.

Lemma Execute_errs_at_return h items ctx sched st out err :
  run h items sched (Execute_init ctx) = Some st ->
  items <> [] -> main st = MReturned out err ->
  length (errs st) = length items + 2 /\
  errs st !! length items = Some None /\
  errs st !! (length items + 1) = Some (ambient st).
Proof.
  intros [Hinv|Hend]%run_Execute_reachable%reachable_Inv Hne Hmain.
  - pose proof (inv_running _ _ _ Hinv) as Hrun. unfold finished in Hrun.
    by rewrite Hmain in Hrun.
  - by eapply Ended_errs.
Qed.

(** No slot is assigned twice. *)
Lemma Execute_slots_written_once h items ctx sched st :
  run h items sched (Execute_init ctx) = Some st -> NoDup (written (trace st)).
Proof.
  assert (Hinv : forall st0, Inv h items st0 -> NoDup (written (trace st0))).
  { intros st0 Hinv. pose proof (inv_acct _ _ _ Hinv) as Hacct.
    assert (Hnd : NoDup (written (trace st0) ++ flying (workers st0))).
    { rewrite Hacct. apply NoDup_seq. }
    by apply NoDup_app in Hnd as (? & _). }
  intros [?|Hend]%run_Execute_reachable%reachable_Inv; [auto|].
  destruct (Ended_origin _ _ _ Hend) as (st0 & ? & _ & _ & _ & [[-> _]|[-> _]]);
    simpl; auto.
Qed.

(** Only the environment changes the caller's context. *)
Lemma step_ambient h items a st st' :
  step h items a st = Some st' -> is_env a = false -> ambient st' = ambient st.
Proof.
  unfold step. destruct (finished st) eqn:Hfin; [done|].
  destruct a; simpl; try done; intros Hstep _.
  - unfold step_main, wg_Add, finish in Hstep.
    repeat (case_match; simplify_eq/=); done.
  - unfold step_worker_done, worker_exit, wg_Add in Hstep.
    repeat (case_match; simplify_eq/=); done.
  - unfold step_worker_recv, worker_exit, wg_Add in Hstep.
    repeat (case_match; simplify_eq/=); done.
  - unfold step_worker_ret, worker_exit, wg_Add, store_err, store_result in Hstep.
    repeat (case_match; simplify_eq/=); done.
  - unfold step_disp_send in Hstep.
    repeat (case_match; simplify_eq/=); done.
  - unfold step_disp_done in Hstep.
    repeat (case_match; simplify_eq/=); done.
Qed.

Lemma run_ambient h items sched st st' :
  run h items sched st = Some st' ->
  forallb (fun a => negb (is_env a)) sched = true ->
  ambient st' = ambient st.
Proof.
  revert st. induction sched as [|a sched IH]; intros st; simpl.
  - by intros [= <-].
  - destruct (step h items a st) as [st1|] eqn:Hstep; [|done].
    intros Hrun [Ha Hrest]%andb_prop.
    rewrite (IH _ Hrun Hrest). eapply step_ambient; [done|].
    by destruct (is_env a).
Qed.

(** The scenario of the test suite: under a context that is never
    cancelled, whatever the schedule, a run of [Execute] that ends returns
    the mapped slice. *)
Lemma Execute_all_succeed_schedule h items ctx sched o :
  items <> [] -> (1 <= concurrency h)%Z ->
  (forall x, x ∈ items -> (mapFunc h (mkContext CtxAmbient None) x).2 = None) ->
  ctx_Err ctx = None ->
  forallb (fun a => negb (is_env a)) sched = true ->
  Execute h items ctx sched = Some o ->
  o = Returned
        (Some ((fun x => (mapFunc h (mkContext CtxAmbient None) x).1) <$> items))
        None.
Proof.
  intros Hne Hconc Hok Hctx Hsched. unfold Execute.
  destruct (run h items sched (Execute_init ctx)) as [st|] eqn:Hrun; [|done].
  intros Ho.
  assert (Hfin : finished st = true).
  { unfold outcome_of in Ho. unfold finished. by destruct (main st). }
  assert (Hend : Ended h items st).
  { eapply (inevitably_run h items (Ended h items)); [|by intros s [? _]|done..].
    apply Execute_ends, Inv_init. }
  destruct (Ended_all_succeed _ _ _ Hne Hconc Hok Hend) as (out & err & Hm & Hres).
  destruct Hres as [-> ->].
  { rewrite (run_ambient _ _ _ _ _ Hrun Hsched). done. }
  unfold outcome_of in Ho. rewrite Hm in Ho. by simplify_eq.
Qed.

(** C1 (amended): for a non-empty input, a transform that succeeds on every
    element of it (when handed the caller's live context) and a concurrency
    of at least 1, [Execute] always returns; when the caller's context is
    not cancelled at that point, it returns a nil error and the slice whose
    element [i] is the transform's result on [items[i]]. *)
Theorem C1_all_succeed_returns_map h items ctx :
  items <> [] -> (1 <= concurrency h)%Z ->
  (forall x, x ∈ items -> (mapFunc h (mkContext CtxAmbient None) x).2 = None) ->
  inevitably h items
    (fun st => exists out err, main st = MReturned out err /\
       (ambient st = None ->
        out = Some ((fun x => (mapFunc h (mkContext CtxAmbient None) x).1)
                      <$> items) /\
        err = None))
    (Execute_init ctx).
Proof.
  intros Hne Hconc Hok. apply Execute_inevitably.
  intros st. by apply Ended_all_succeed.
Qed.

(** C2 (amended): for a non-empty input and a concurrency of at least 0,
    [Execute] always returns; if a transform failure was recorded or the
    caller's context is cancelled, the output is nil and the error joins
    every recorded failure and the context's error. *)
Theorem C2_failure_withholds_output h items ctx :
  items <> [] -> (0 <= concurrency h)%Z ->
  inevitably h items
    (fun st => exists out err, main st = MReturned out err /\
       ((exists i e, EvFail i e ∈ trace st) \/ ambient st <> None ->
        out = None /\
        exists agg, err = Some agg /\
          (forall i e, EvFail i e ∈ trace st -> e ∈ agg) /\
          (forall e, ambient st = Some e -> e ∈ agg)))
    (Execute_init ctx).
Proof.
  intros Hne Hconc. apply Execute_inevitably.
  intros st. by apply Ended_failure.
Qed.

(** C3 (amended): under collect-all, with a non-empty input and a
    concurrency of at least 1, [Execute] always returns.  When the caller's
    context is not cancelled, every index has been run to completion and
    every element on which the transform fails has its failure recorded;
    every recorded failure is in the returned error, and the output is nil
    as soon as there is one. *)
Theorem C3_collect_all_reports_every_failure h items ctx :
  items <> [] -> (1 <= concurrency h)%Z -> stopOnError h = false ->
  inevitably h items
    (fun st => exists out err, main st = MReturned out err /\
       (ambient st = None ->
        (forall i, i < length items -> i ∈ written (trace st)) /\
        (forall i x e, items !! i = Some x ->
           (mapFunc h (mkContext CtxAmbient None) x).2 = Some e ->
           EvFail i e ∈ trace st)) /\
       (forall i e, EvFail i e ∈ trace st ->
        out = None /\ exists agg, err = Some agg /\ e ∈ agg))
    (Execute_init ctx).
Proof.
  intros Hne Hconc Hstop. apply Execute_inevitably.
  intros st. by apply Ended_collect_all.
Qed.

(** C4 (amended): for a concurrency of at least 0, the number of workers is
    [min(concurrency, len(items))]: in every state of every run no more
    workers than that have been started and no more invocations of the
    transform than that are in flight, and exactly that many workers have
    been started once [Execute] waits for them. *)
Theorem C4_worker_bound h items ctx :
  (0 <= concurrency h)%Z ->
  numWorkers h items = Z.min (concurrency h) (Z.of_nat (length items)) /\
  forall sched st,
    run h items sched (Execute_init ctx) = Some st ->
    (Z.of_nat (length (workers st))
       <= Z.min (concurrency h) (Z.of_nat (length items)))%Z /\
    (Z.of_nat (in_flight st)
       <= Z.min (concurrency h) (Z.of_nat (length items)))%Z /\
    (main st = MWait ->
     Z.of_nat (length (workers st))
     = Z.min (concurrency h) (Z.of_nat (length items))).
Proof.
  intros Hconc. split; [apply numWorkers_min|].
  intros sched st Hrun%run_Execute_reachable.
  destruct (reachable_workers h items ctx st Hconc Hrun) as [Hws Hwait].
  rewrite numWorkers_min in Hws, Hwait. pose proof (in_flight_le st).
  split_and!; [lia|lia|done].
Qed.

(** C6: in every state of every run, each invocation of the transform was
    handed the caller's context, and each recorded result or failure is
    what the transform gave on that context, which is live as long as the
    caller's context is, whatever happened to the coordination context. *)
Theorem C6_transform_gets_callers_context h items ctx sched st :
  run h items sched (Execute_init ctx) = Some st ->
  (forall c i, EvInvoke c i ∈ trace st -> c = CtxAmbient) /\
  (forall i v, EvStore i v ∈ trace st ->
     exists c x, items !! i = Some x /\ ctx_which c = CtxAmbient /\
       (ambient st = None -> ctx_Err c = None) /\
       mapFunc h c x = (v, None)) /\
  (forall i e, EvFail i e ∈ trace st ->
     exists c x v, items !! i = Some x /\ ctx_which c = CtxAmbient /\
       (ambient st = None -> ctx_Err c = None) /\
       mapFunc h c x = (v, Some e)).
Proof.
  intros Hrun%run_Execute_reachable.
  destruct (reachable_slots _ _ _ _ Hrun) as (Hctx & Hst & Hfl).
  split_and!; [done| |].
  - intros i v Hin. by apply Hst in Hin as (_ & _ & Hp).
  - intros i e Hin. apply Hfl in Hin as (_ & _ & v & c & x & Hp).
    by exists c, x, v.
Qed.

(** C7: on an empty input [Execute] always returns a nil output and a nil
    error, whatever the context and the configuration; no worker has been
    started and the transform has not been invoked. *)
Theorem C7_empty_input h ctx :
  inevitably h []
    (fun st => main st = MReturned None None /\ workers st = [] /\
               trace st = [])
    (Execute_init ctx) /\
  Execute h [] ctx [AMain] = Some (Returned None None).
Proof.
  split; [|done]. apply Execute_inevitably.
  intros st. by apply Ended_empty.
Qed.

(** C8: in every state of every run and for every index, the result slot
    and the error slot are not both assigned: an index with a stored
    result has a nil error slot, an index with a recorded failure still
    has the zero value in its result slot. *)
Theorem C8_result_and_error_slots_exclusive h items ctx sched st :
  run h items sched (Execute_init ctx) = Some st ->
  forall i,
    (forall v e, ~ (EvStore i v ∈ trace st /\ EvFail i e ∈ trace st)) /\
    (forall v, EvStore i v ∈ trace st ->
       results st !! i = Some v /\ errs st !! i = Some None) /\
    (forall e, EvFail i e ∈ trace st ->
       errs st !! i = Some (Some e) /\ results st !! i = Some go_zero).
Proof.
  intros Hrun%run_Execute_reachable i.
  destruct (reachable_slots _ _ _ _ Hrun) as (_ & Hst & Hfl).
  split_and!.
  - intros v e [Hv He]. apply Hst in Hv as (_ & Hv & _).
    apply Hfl in He as (He & _). congruence.
  - intros v Hv. by apply Hst in Hv as (? & ? & _).
  - intros e He. by apply Hfl in He as (? & ? & _).
Qed.


End ExecuteProperties.

(* ===================================================================== *)
(** * Concrete runs *)
(* ===================================================================== *)

Lemma C1_all_succeed_witness :
  [1; 2; 3; 4; 5] <> [] /\
  (1 <= concurrency (WithConcurrency (MapConcurrent double) 3))%Z /\
  (forall x, x ∈ [1; 2; 3; 4; 5] ->
     (mapFunc (WithConcurrency (MapConcurrent double) 3)
        (mkContext CtxAmbient None) x).2 = None) /\
  inevitably (WithConcurrency (MapConcurrent double) 3) [1; 2; 3; 4; 5]
    (fun st => exists out err, main st = MReturned out err /\
       (ambient st = None -> out = Some [2; 4; 6; 8; 10] /\ err = None))
    (Execute_init background).
Proof.
  split; [discriminate|]. split; [simpl; lia|]. split; [reflexivity|].
  apply (C1_all_succeed_returns_map
           (WithConcurrency (MapConcurrent double) 3) [1; 2; 3; 4; 5] background).
  - discriminate.
  - simpl; lia.
  - reflexivity.
Defined.

(** With a cancelled context the same call returns a nil output and the
    context's error, although the transform succeeds on every element. *)
Lemma C1_counterexample :
  [1] <> [] /\
  (1 <= concurrency (MapConcurrent double))%Z /\
  (forall c x, (mapFunc (MapConcurrent double) c x).2 = None) /\
  Execute (MapConcurrent double) [1] canceled_ctx sched_done_first
  = Some (Returned None (Some [canceled])).
Proof.
  split; [discriminate|]. split; [simpl; lia|]. split; reflexivity.
Qed.

Lemma C2_failure_witness :
  [1; 2; 3; 4; 5] <> [] /\
  (0 <= concurrency (MapConcurrent fail_at_3))%Z /\
  inevitably (MapConcurrent fail_at_3) [1; 2; 3; 4; 5]
    (fun st => exists out err, main st = MReturned out err /\
       ((exists i e, EvFail i e ∈ trace st) \/ ambient st <> None ->
        out = None /\
        exists agg, err = Some agg /\
          (forall i e, EvFail i e ∈ trace st -> e ∈ agg) /\
          (forall e, ambient st = Some e -> e ∈ agg)))
    (Execute_init background).
Proof.
  split; [discriminate|]. split; [simpl; lia|].
  apply (C2_failure_withholds_output
           (MapConcurrent fail_at_3) [1; 2; 3; 4; 5] background).
  - discriminate.
  - simpl; lia.
Defined.

(** On an empty input a context that is cancelled, before the call or
    during it, gives a nil error; with a negative concurrency nothing is
    returned at all. *)
Lemma C2_counterexample :
  Execute (MapConcurrent double) [] canceled_ctx [AMain]
  = Some (Returned None None) /\
  Execute (MapConcurrent double) [] background [AEnvCancel canceled; AMain]
  = Some (Returned None None) /\
  Execute (WithConcurrency (MapConcurrent double) (-1)) [1] canceled_ctx
          [AMain; AMain]
  = Some Panicked.
Proof. repeat split; reflexivity. Qed.

Lemma C3_collect_all_witness :
  [1; 2; 3; 4; 5] <> [] /\
  (1 <= concurrency (WithStopOnError (MapConcurrent fail_at_3) false))%Z /\
  stopOnError (WithStopOnError (MapConcurrent fail_at_3) false) = false /\
  inevitably (WithStopOnError (MapConcurrent fail_at_3) false) [1; 2; 3; 4; 5]
    (fun st => exists out err, main st = MReturned out err /\
       (ambient st = None ->
        (forall i, i < 5 -> i ∈ written (trace st)) /\
        (forall i x e, [1; 2; 3; 4; 5] !! i = Some x ->
           (fail_at_3 (mkContext CtxAmbient None) x).2 = Some e ->
           EvFail i e ∈ trace st)) /\
       (forall i e, EvFail i e ∈ trace st ->
        out = None /\ exists agg, err = Some agg /\ e ∈ agg))
    (Execute_init background).
Proof.
  split; [discriminate|]. split; [simpl; lia|]. split; [reflexivity|].
  apply (C3_collect_all_reports_every_failure
           (WithStopOnError (MapConcurrent fail_at_3) false) [1; 2; 3; 4; 5]
           background).
  - discriminate.
  - simpl; lia.
  - reflexivity.
Defined.

(** Under collect-all a job that was sent is never run when the worker
    sees the cancelled context first, and never run when there is no
    worker: then the failing element goes unreported. *)
Lemma C3_counterexample :
  (exists st,
     run (WithStopOnError (MapConcurrent double) false) [1]
         sched_send_then_done (Execute_init canceled_ctx) = Some st /\
     main st = MReturned None (Some [canceled]) /\
     jobs st = [mkJob 0 1] /\ trace st = [EvCancel]) /\
  (exists st,
     run (WithStopOnError (WithConcurrency (MapConcurrent fail_at_3) 0) false)
         [3] [AMain; AMain; AMain; ADispSend; AMain] (Execute_init background)
     = Some st /\
     main st = MReturned (Some [0]) None /\
     jobs st = [mkJob 0 3] /\ trace st = [EvCancel]).
Proof.
  split; eexists; (split; [vm_compute; reflexivity|]); repeat split.
Qed.

Lemma C4_worker_bound_witness :
  (0 <= concurrency (WithConcurrency (MapConcurrent double) 2))%Z /\
  numWorkers (WithConcurrency (MapConcurrent double) 2) [3; 4; 5] = 2%Z /\
  exists st,
    run (WithConcurrency (MapConcurrent double) 2) [3; 4; 5]
        [AMain; AMain; AMain; AMain; AMain; ADispSend; AWorkerRecv 0;
         ADispSend; AWorkerRecv 1]
        (Execute_init background) = Some st /\
    in_flight st = 2 /\
    (Z.of_nat (length (workers st)) <= 2)%Z /\
    (Z.of_nat (in_flight st) <= 2)%Z /\
    (main st = MWait -> Z.of_nat (length (workers st)) = 2%Z).
Proof.
  split; [simpl; lia|].
  pose proof (C4_worker_bound
                (WithConcurrency (MapConcurrent double) 2) [3; 4; 5] background)
    as Hbound.
  destruct Hbound as [Hnum Hrun]; [simpl; lia|].
  split; [exact Hnum|].
  eexists. split; [vm_compute; reflexivity|]. split; [reflexivity|].
  apply Hrun with (sched := [AMain; AMain; AMain; AMain; AMain; ADispSend;
                             AWorkerRecv 0; ADispSend; AWorkerRecv 1]).
  vm_compute; reflexivity.
Defined.

(** With concurrency -1 the bound [min(concurrency, len(items))] is -1,
    below the number of invocations in flight, which is 0. *)
Lemma C4_counterexample :
  exists st,
    run (WithConcurrency (MapConcurrent double) (-1)) [1] [AMain]
        (Execute_init background) = Some st /\
    ~ (Z.of_nat (in_flight st)
         <= Z.min (concurrency (WithConcurrency (MapConcurrent double) (-1)))
                  (Z.of_nat (length [1])))%Z.
Proof.
  eexists. split; [vm_compute; reflexivity|]. vm_compute. intros Hle.
  apply Hle. reflexivity.
Qed.

(** C5: on the input [[7]] with a cancelled context, the error slots at
    the return of [Execute] are [nil, nil, context.Canceled]: length
    [len(items) + 2], the slot at index [len(items)] never assigned, the
    context's error appended after it. *)
Theorem C5_context_error_is_appended :
  exists st,
    run (MapConcurrent double) [7] sched_done_first
        (Execute_init canceled_ctx) = Some st /\
    main st = MReturned None (Some [canceled]) /\
    errs st = [None; None; Some canceled].
Proof. eexists. split; [vm_compute; reflexivity|]. split; reflexivity. Qed.

Lemma C6_callers_context_witness :
  exists st,
    run (WithStopOnError (WithConcurrency (MapConcurrent fail_at_3) 2) false)
        [3; 4] sched_two_workers (Execute_init background) = Some st /\
    trace st = [EvCancel; EvFail 0 "error at 3"%string; EvStore 1 8;
                EvInvoke CtxAmbient 1; EvInvoke CtxAmbient 0] /\
    (forall c i, EvInvoke c i ∈ trace st -> c = CtxAmbient) /\
    (forall i v, EvStore i v ∈ trace st ->
       exists c x, [3; 4] !! i = Some x /\ ctx_which c = CtxAmbient /\
         (ambient st = None -> ctx_Err c = None) /\
         fail_at_3 c x = (v, None)) /\
    (forall i e, EvFail i e ∈ trace st ->
       exists c x v, [3; 4] !! i = Some x /\ ctx_which c = CtxAmbient /\
         (ambient st = None -> ctx_Err c = None) /\
         fail_at_3 c x = (v, Some e)).
Proof.
  eexists. split; [vm_compute; reflexivity|]. split; [reflexivity|].
  apply (C6_transform_gets_callers_context
           (WithStopOnError (WithConcurrency (MapConcurrent fail_at_3) 2) false)
           [3; 4] background sched_two_workers).
  vm_compute; reflexivity.
Defined.

Lemma C8_slots_exclusive_witness :
  exists st,
    run (WithStopOnError (WithConcurrency (MapConcurrent fail_at_3) 2) false)
        [3; 4] sched_two_workers (Execute_init background) = Some st /\
    results st = [0; 8] /\
    errs st = [Some "error at 3"%string; None; None; None] /\
    forall i,
      (forall v e, ~ (EvStore i v ∈ trace st /\ EvFail i e ∈ trace st)) /\
      (forall v, EvStore i v ∈ trace st ->
         results st !! i = Some v /\ errs st !! i = Some None) /\
      (forall e, EvFail i e ∈ trace st ->
         errs st !! i = Some (Some e) /\ results st !! i = Some go_zero).
Proof.
  eexists. split; [vm_compute; reflexivity|]. split; [reflexivity|].
  split; [reflexivity|].
  apply (C8_result_and_error_slots_exclusive
           (WithStopOnError (WithConcurrency (MapConcurrent fail_at_3) 2) false)
           [3; 4] background sched_two_workers).
  vm_compute; reflexivity.
Defined.



(* ===================================================================== *)
(** * Further properties of package idx *)
(* ===================================================================== *)

Section IdxMore.
Local Open Scope string_scope.

Lemma Contains_Count s b : Contains s b = false <-> Count s b = 0.
Proof.
  induction s as [|c s IH]; simpl; [done|].
  destruct (Ascii.eqb c b); simpl; [split; [done|lia]|exact IH].
Qed.

Lemma Count_app s1 s2 b : Count (s1 ++ s2) b = Count s1 b + Count s2 b.
Proof. induction s1 as [|c s1 IH]; simpl; [done|]. rewrite IH. lia. Qed.

Lemma Split_length s sep : length (Split s sep) = S (Count s sep).
Proof.
  induction s as [|c s IH]; simpl; [done|].
  destruct (Ascii.eqb c sep); simpl; [by rewrite IH|].
  destruct (Split s sep) as [|p ps] eqn:Hp; [by apply Split_nonempty in Hp|].
  simpl in *. lia.
Qed.

Lemma Split_parts s sep p : p ∈ Split s sep -> Contains p sep = false.
Proof.
  revert p. induction s as [|c s IH]; intros p; simpl.
  - by intros ->%list_elem_of_singleton.
  - destruct (Ascii.eqb c sep) eqn:Hc.
    + intros [->|?]%elem_of_cons; [done|auto].
    + destruct (Split s sep) as [|q qs] eqn:Hq; [by apply Split_nonempty in Hq|].
      intros [->|?]%elem_of_cons.
      * simpl. rewrite Hc. simpl. apply IH. by left.
      * apply IH. by right.
Qed.

Lemma Split_no_sep s sep : Contains s sep = false -> Split s sep = [s].
Proof.
  induction s as [|c s IH]; simpl; [done|].
  destruct (Ascii.eqb c sep); simpl; [done|]. by intros ->%IH.
Qed.

Lemma Split_app_sep a s sep :
  Contains a sep = false -> Split (a ++ String sep s) sep = a :: Split s sep.
Proof.
  induction a as [|c a IH]; simpl.
  - by rewrite Ascii.eqb_refl.
  - destruct (Ascii.eqb c sep); simpl; [done|]. by intros ->%IH.
Qed.

Lemma eqb_empty s : String.eqb s "" = false <-> s <> "".
Proof. by rewrite String.eqb_neq. Qed.

Lemma is_word_not_colon c : is_word c = true -> Ascii.eqb c ":" = false.
Proof.
  destruct (Ascii.eqb_spec c ":") as [->|]; [|done]. by vm_compute.
Qed.

Lemma all_word_no_colon s : all_word s = true -> Contains s ":" = false.
Proof.
  induction s as [|c s IH]; simpl; [done|].
  intros [Hc Hs]%andb_prop. by rewrite (is_word_not_colon _ Hc), IH.
Qed.

Lemma typeRegex_no_colon s :
  typeRegex_MatchString s = true -> s <> "" /\ Contains s ":" = false.
Proof.
  destruct s as [|c s]; simpl; [done|].
  intros [Hc Hs]%andb_prop. split; [done|].
  rewrite (all_word_no_colon _ Hs), orb_false_r.
  apply is_word_not_colon. unfold is_word. by rewrite Hc.
Qed.

Lemma Type_Validate_regex (t : ObjType) :
  Type_Validate t = None -> typeRegex_MatchString t = true.
Proof.
  unfold Type_Validate.
  destruct (String.eqb t ""); [done|].
  destruct (Nat.ltb 32 (String.length t)); [done|].
  destruct (Contains t ":"); [done|].
  by destruct (typeRegex_MatchString t).
Qed.

Lemma ParseID_bad_parts (s : string) :
  length (Split s ":") <> 3 ->
  ParseID s = inr (BadFormat (length (Split s ":"))).
Proof.
  unfold ParseID. by destruct (Split s ":") as [|a [|b [|c [|d l]]]].
Qed.

(** Parsing the three components joined by colons. *)
Lemma ParseID_of_parts (a b c : string) :
  a <> "" -> Type_Validate b = None -> c <> "" ->
  Contains a ":" = false -> Contains c ":" = false ->
  ParseID (a ++ String ":" (b ++ String ":" c)) = inl (mkID a b c).
Proof.
  intros Ha%eqb_empty Hb Hc%eqb_empty Hac Hcc.
  destruct (typeRegex_no_colon _ (Type_Validate_regex _ Hb)) as [_ Hbc].
  unfold ParseID.
  rewrite (Split_app_sep _ _ _ Hac), (Split_app_sep _ _ _ Hbc),
    (Split_no_sep _ _ Hcc).
  unfold ParseType. by rewrite Ha, Hb, Hc.
Qed.

(** X1: [Type.Validate] accepts exactly the strings of at most 32 bytes
    that match the regular expression; the emptiness test and the colon
    test never reject a string the regular expression accepts. *)
Theorem Type_Validate_accepts (t : ObjType) :
  Type_Validate t = None <->
  typeRegex_MatchString t = true /\ String.length t <= 32.
Proof.
  unfold Type_Validate. split.
  - destruct (String.eqb t ""); [done|].
    destruct (Nat.ltb_spec 32 (String.length t)); [done|].
    destruct (Contains t ":"); [done|].
    destruct (typeRegex_MatchString t); [|done]. intros _. split; [done|lia].
  - intros [Hre Hlen]. destruct (typeRegex_no_colon _ Hre) as [Hne Hcolon].
    apply eqb_empty in Hne. rewrite Hne, Hcolon, Hre. simpl.
    destruct (Nat.ltb_spec 32 (String.length t)); [lia|done].
Qed.

(** X2: [ParseID] reports a format error exactly when the string does not
    hold two colons, and the number of parts it reports is the number of
    colons plus one. *)
Theorem ParseID_format_error (s : string) (n : nat) :
  ParseID s = inr (BadFormat n) <-> n = S (Count s ":") /\ Count s ":" <> 2.
Proof.
  unfold ParseID. pose proof (Split_length s ":") as Hlen.
  destruct (Split s ":") as [|a [|b [|c [|d l]]]]; simpl in *.
  - done.
  - split; [intros [= <-]; lia|]. intros [-> _]. do 2 f_equal. lia.
  - split; [intros [= <-]; lia|]. intros [-> _]. do 2 f_equal. lia.
  - split; [|lia]. unfold ParseType.
    destruct (String.eqb a ""); [done|]. destruct (Type_Validate b); [done|].
    by destruct (String.eqb c "").
  - split; [intros [= <-]; lia|]. intros [-> _]. do 2 f_equal. lia.
Qed.

(** X3: an ID that [ParseID] returns passes [Validate], and none of its
    three components contains a colon. *)
Theorem ParseID_valid (s : string) (id : ID) :
  ParseID s = inl id ->
  ID_Validate id = None /\
  Contains (env id) ":" = false /\
  Contains (objectType id) ":" = false /\
  Contains (objectID id) ":" = false.
Proof.
  intros Hp. pose proof (ParseID_parts _ _ Hp) as Hparts.
  assert (Hin : forall p, p ∈ [env id; objectType id; objectID id] ->
                          Contains p ":" = false).
  { intros p. rewrite <- Hparts. apply Split_parts. }
  split; [|split_and!; apply Hin; set_solver].
  revert Hp. unfold ParseID, ParseType, ID_Validate. rewrite Hparts.
  destruct (String.eqb (env id) ""); [done|].
  destruct (Type_Validate (objectType id)); [done|].
  by destruct (String.eqb (objectID id) "").
Qed.

(** X4: an ID that passes [Validate] and has no colon in its environment or
    its object ID is parsed back from its string form. *)
Theorem ID_String_ParseID (id : ID) :
  ID_Validate id = None ->
  Contains (env id) ":" = false ->
  Contains (objectID id) ":" = false ->
  ParseID (ID_String id) = inl id.
Proof.
  unfold ID_Validate. intros Hv He Ho.
  destruct (String.eqb (env id) "") eqn:Hee; [done|].
  destruct (Type_Validate (objectType id)) eqn:Ht; [done|].
  destruct (String.eqb (objectID id) "") eqn:Hoe; [done|].
  apply eqb_empty in Hee, Hoe.
  unfold ID_String, Type_String.
  change (env id ++ ":" ++ objectType id ++ ":" ++ objectID id)
    with (env id ++ String ":" (objectType id ++ String ":" (objectID id))).
  rewrite ParseID_of_parts by done. by destruct id.
Qed.

Lemma ParseID_valid_witness :
  ParseID "dev:order_item:abc" = inl (mkID "dev" "order_item" "abc") /\
  ID_Validate (mkID "dev" "order_item" "abc") = None /\
  Contains "dev" ":" = false /\
  Contains "order_item" ":" = false /\
  Contains "abc" ":" = false.
Proof.
  split; [reflexivity|].
  apply (ParseID_valid "dev:order_item:abc"). reflexivity.
Defined.

Lemma ID_String_ParseID_witness :
  ID_Validate (mkID "vibe" "user" "custom123") = None /\
  Contains "vibe" ":" = false /\ Contains "custom123" ":" = false /\
  ParseID (ID_String (mkID "vibe" "user" "custom123"))
  = inl (mkID "vibe" "user" "custom123").
Proof.
  split; [reflexivity|]. split; [reflexivity|]. split; [reflexivity|].
  apply ID_String_ParseID; reflexivity.
Defined.

(** X5: an ID with a colon in its environment or in its object ID is not
    parsed back from its string form, whether it passes [Validate] or not:
    [ParseID] finds more than three parts. *)
Theorem ID_String_colon_not_parsed (id : ID) :
  Contains (env id) ":" = true \/ Contains (objectID id) ":" = true ->
  exists n, 3 < n /\ ParseID (ID_String id) = inr (BadFormat n).
Proof.
  intros Hcolon. exists (S (Count (ID_String id) ":")).
  assert (Hnz : Count (env id) ":" <> 0 \/ Count (objectID id) ":" <> 0).
  { destruct Hcolon as [Hc|Hc]; [left|right];
      intros Hz%Contains_Count; congruence. }
  assert (Hc : 2 < Count (ID_String id) ":").
  { unfold ID_String, Type_String.
    change (env id ++ ":" ++ objectType id ++ ":" ++ objectID id)
      with (env id ++ String ":" (objectType id ++ String ":" (objectID id))).
    rewrite Count_app. simpl. rewrite Count_app. simpl. lia. }
  split; [lia|]. rewrite <- Split_length. apply ParseID_bad_parts.
  rewrite Split_length. lia.
Qed.

Lemma ID_String_colon_witness :
  (Contains "vibe" ":" = true \/ Contains "a:b" ":" = true) /\
  ID_Validate (mkID "vibe" "user" "a:b") = None /\
  exists n, 3 < n /\
    ParseID (ID_String (mkID "vibe" "user" "a:b")) = inr (BadFormat n).
Proof.
  split; [right; reflexivity|]. split; [reflexivity|].
  apply (ID_String_colon_not_parsed (mkID "vibe" "user" "a:b")).
  right; reflexivity.
Defined.

(** X6: whatever its argument, [NewNamespace] gives a namespace whose
    environment is neither empty nor "prd", and every ID that
    [NewIDWithValue] makes in it passes [Validate]. *)
Theorem NewNamespace_environment (TrimSpace : string -> string)
    (e : string) (t : ObjType) (v : string) :
  Environment (NewNamespace TrimSpace e) <> "" /\
  Environment (NewNamespace TrimSpace e) <> "prd" /\
  forall id, NewIDWithValue (NewNamespace TrimSpace e) t v = inl id ->
             ID_Validate id = None.
Proof.
  assert (Hne : normalizeEnvironment TrimSpace e <> "" /\
                normalizeEnvironment TrimSpace e <> "prd").
  { unfold normalizeEnvironment.
    destruct (String.eqb_spec (TrimSpace e) "");
      destruct (String.eqb_spec (TrimSpace e) "prd"); simpl; done. }
  destruct Hne as [Hne Hprd]. split; [done|]. split; [done|].
  intros id. unfold NewIDWithValue, ID_Validate.
  destruct (Type_Validate t) eqn:Ht; [done|].
  destruct (String.eqb v "") eqn:Hv; [done|]. intros [= <-]. simpl.
  apply eqb_empty in Hne. unfold NewNamespace. simpl.
  by rewrite Hne, Ht, Hv.
Qed.

(** X7: on any namespace, the zero value [Namespace{}] included, an ID
    that [NewIDWithValue] returns carries the namespace's environment, the
    type and the value it was given, and it passes [Validate] exactly when
    that environment is not empty. *)
Theorem NewIDWithValue_valid (n : Namespace) (t : ObjType) (v : string) (id : ID) :
  NewIDWithValue n t v = inl id ->
  id = mkID (Environment n) t v /\
  (ID_Validate id = None <-> Environment n <> "").
Proof.
  unfold NewIDWithValue, ID_Validate, Environment.
  destruct (Type_Validate t) eqn:Ht; [done|].
  destruct (String.eqb v "") eqn:Hv; [done|]. intros [= <-]. simpl.
  split; [done|]. rewrite Ht, Hv.
  destruct (String.eqb_spec (environment n) ""); split; done.
Qed.

Lemma NewIDWithValue_valid_witness :
  NewIDWithValue (mkNamespace "") "user" "custom123"
  = inl (mkID "" "user" "custom123") /\
  mkID "" "user" "custom123" = mkID (Environment (mkNamespace "")) "user" "custom123" /\
  (ID_Validate (mkID "" "user" "custom123") = None <->
   Environment (mkNamespace "") <> "").
Proof.
  split; [reflexivity|].
  apply (NewIDWithValue_valid (mkNamespace "") "user" "custom123"). reflexivity.
Defined.

(** X8: an ID made by [NewIDWithValue] is parsed back from its string form
    when the namespace's environment is not empty and neither it nor the
    value contains a colon. *)
Theorem NewIDWithValue_roundtrip (n : Namespace) (t : ObjType) (v : string) (id : ID) :
  NewIDWithValue n t v = inl id ->
  Environment n <> "" ->
  Contains (Environment n) ":" = false ->
  Contains v ":" = false ->
  ParseID (ID_String id) = inl id.
Proof.
  unfold NewIDWithValue, Environment. intros Hnew Hne He Hv.
  destruct (Type_Validate t) eqn:Ht; [done|].
  destruct (String.eqb v "") eqn:Hve; [done|]. simplify_eq.
  apply eqb_empty in Hve. unfold ID_String, Type_String. simpl.
  change (environment n ++ ":" ++ t ++ ":" ++ v)
    with (environment n ++ String ":" (t ++ String ":" v)).
  by apply ParseID_of_parts.
Qed.

Lemma NewIDWithValue_roundtrip_witness :
  NewIDWithValue (mkNamespace "vibe") "user" "custom123"
  = inl (mkID "vibe" "user" "custom123") /\
  Environment (mkNamespace "vibe") <> "" /\
  Contains (Environment (mkNamespace "vibe")) ":" = false /\
  Contains "custom123" ":" = false /\
  ParseID (ID_String (mkID "vibe" "user" "custom123"))
  = inl (mkID "vibe" "user" "custom123").
Proof.
  split; [reflexivity|]. split; [discriminate|]. split; [reflexivity|].
  split; [reflexivity|].
  apply (NewIDWithValue_roundtrip (mkNamespace "vibe") "user" "custom123");
    [reflexivity|discriminate|reflexivity|reflexivity].
Defined.

End IdxMore.

(* ===================================================================== *)
(** * Properties of the sequential helpers of package slicex *)
(* ===================================================================== *)

Section HelpersFacts.
Context {T : Type} `{Countable T}.
Implicit Types (l : list T) (seen : gmap T bool).

(** The loop of [Unique] from the empty state. *)
Local Abbreviation uniq l := (foldl Unique_step (∅, []) l).2.

Lemma seen_at_insert seen x y :
  seen_at (<[x := true]> seen) y = true <-> y = x \/ seen_at seen y = true.
Proof.
  unfold seen_at. destruct (decide (x = y)) as [->|Hne].
  - rewrite lookup_insert_eq. simpl. split; auto.
  - rewrite lookup_insert_ne by done. split; [auto|]. by intros [->|?].
Qed.

(** The loop started on [(seen, acc)], with [seen] marking the elements of
    [acc], appends to [acc] what the loop started empty produces, without
    the elements of [acc]. *)
Lemma Unique_loop seen acc l :
  (forall y, seen_at seen y = true <-> y ∈ acc) ->
  let st := foldl Unique_step (seen, acc) l in
  let st0 := foldl Unique_step (∅, []) l in
  st.2 = acc ++ filter (fun y => y ∉ acc) st0.2 /\
  (forall y, seen_at st.1 y = true <-> y ∈ st.2) /\
  (forall y, seen_at st0.1 y = true <-> y ∈ st0.2).
Proof.
  intros Hseen. induction l as [|x l IH] using rev_ind; simpl.
  - split_and!; [by rewrite app_nil_r|done|].
    intros y. unfold seen_at. rewrite lookup_empty. simpl.
    split; [done|by intros ?%elem_of_nil].
  - rewrite !foldl_app. simpl.
    destruct (foldl Unique_step (seen, acc) l) as [s1 r1].
    destruct (foldl Unique_step (∅, []) l) as [s0 r0].
    simpl in IH. destruct IH as (Hr & Hs1 & Hs0). unfold Unique_step.
    assert (Hx1 : seen_at s1 x = true <-> (x ∈ acc \/ seen_at s0 x = true)).
    { rewrite Hs1, Hr, elem_of_app, list_elem_of_filter, Hs0.
      destruct (decide (x ∈ acc)); split; intros Hx; auto.
      - destruct Hx as [?|[_ ?]]; auto.
      - destruct Hx as [?|?]; [done|auto]. }
    destruct (seen_at s0 x) eqn:H0; simpl.
    + destruct (seen_at s1 x) eqn:H1; simpl; [done|].
      assert (false = true) by (apply Hx1; by right). done.
    + rewrite filter_app. simpl.
      destruct (seen_at s1 x) eqn:H1; simpl.
      * destruct Hx1 as [[Hx|?] _]; [done| |done].
        rewrite filter_cons_False by (by intros ?). rewrite filter_nil, app_nil_r.
        split_and!; [done|done|].
        intros y. rewrite seen_at_insert, elem_of_app, list_elem_of_singleton, Hs0.
        split; intros [?|?]; auto.
      * assert (x ∉ acc).
        { intros ?. assert (false = true) by (apply Hx1; by left). done. }
        rewrite filter_cons_True by done. rewrite filter_nil, Hr, <- app_assoc.
        split_and!; [done| |].
        -- intros y. rewrite seen_at_insert, app_assoc, <- Hr.
           rewrite elem_of_app, list_elem_of_singleton, Hs1.
           split; intros [?|?]; auto.
        -- intros y. rewrite seen_at_insert, elem_of_app, list_elem_of_singleton, Hs0.
           split; intros [?|?]; auto.
Qed.

Lemma uniq_cons x l : uniq (x :: l) = x :: filter (fun y => y <> x) (uniq l).
Proof.
  simpl. unfold seen_at at 1. rewrite lookup_empty. simpl.
  destruct (Unique_loop (<[x := true]> ∅) [x] l) as (Hr & _ & _).
  { intros y. rewrite seen_at_insert, list_elem_of_singleton.
    unfold seen_at. rewrite lookup_empty. simpl. split; [by intros [?|?]|auto]. }
  simpl in Hr. rewrite Hr. f_equal. apply list_filter_iff.
  intros y. by rewrite list_elem_of_singleton.
Qed.

Lemma elem_of_uniq l x : x ∈ uniq l <-> x ∈ l.
Proof.
  induction l as [|y l IH]; [done|].
  rewrite uniq_cons, !elem_of_cons, list_elem_of_filter, IH.
  destruct (decide (x = y)); split; intros Hx; auto.
  - destruct Hx as [?|[_ ?]]; auto.
  - destruct Hx as [?|?]; [done|auto].
Qed.

Lemma NoDup_uniq l : NoDup (uniq l).
Proof.
  induction l as [|y l IH]; [apply NoDup_nil_2|].
  rewrite uniq_cons. apply NoDup_cons. split.
  - rewrite list_elem_of_filter. by intros [? _].
  - by apply NoDup_filter.
Qed.

Lemma sublist_uniq l : uniq l `sublist_of` l.
Proof.
  induction l as [|y l IH]; [done|].
  rewrite uniq_cons. apply sublist_skip.
  etrans; [apply sublist_filter|done].
Qed.

Lemma filter_all {A} (P : A -> Prop) `{forall x, Decision (P x)} (k : list A) :
  (forall x, x ∈ k -> P x) -> filter P k = k.
Proof.
  induction k as [|x k IH]; intros Hall; [done|].
  rewrite filter_cons_True by (apply Hall; by left).
  f_equal. apply IH. intros y Hy. apply Hall. by right.
Qed.

Lemma uniq_NoDup l : NoDup l -> uniq l = l.
Proof.
  induction 1 as [|y l Hy Hl IH]; [done|].
  rewrite uniq_cons, IH. f_equal.
  apply filter_all. by intros z Hz ->.
Qed.

Lemma Unique_Some l : l <> [] -> Unique l = Some (uniq l).
Proof. unfold Unique. by destruct l. Qed.

(** X9: [Unique] returns nil exactly on an empty slice; otherwise it keeps
    the first occurrence of each element: the first element, followed by
    what [Unique] keeps of the rest without that element. *)
Theorem Unique_first_occurrence (x : T) (l : list T) :
  Unique (@nil T) = None /\
  Unique (x :: l)
  = Some (x :: filter (fun y => y <> x) (default [] (Unique l))).
Proof.
  split; [done|]. rewrite Unique_Some by done. rewrite uniq_cons.
  destruct l as [|y l]; [done|]. by rewrite Unique_Some.
Qed.

(** X10: the result of [Unique] on a non-empty slice has no duplicates, has
    exactly the elements of the slice, and keeps them in the order of the
    slice. *)
Theorem Unique_dedup (l : list T) :
  l <> [] ->
  exists r, Unique l = Some r /\ NoDup r /\
            (forall x, x ∈ r <-> x ∈ l) /\ r `sublist_of` l.
Proof.
  intros Hne. exists (uniq l). rewrite Unique_Some by done.
  split_and!; [done|apply NoDup_uniq|apply elem_of_uniq|apply sublist_uniq].
Qed.

(** X11: [Unique] returns a non-empty slice without duplicates unchanged,
    so applying it twice gives what applying it once gives. *)
Theorem Unique_idempotent (l : list T) :
  (l <> [] -> NoDup l -> Unique l = Some l) /\
  Unique (default [] (Unique l)) = Unique l.
Proof.
  split.
  - intros Hne Hnd. by rewrite Unique_Some, uniq_NoDup.
  - destruct l as [|x l]; [reflexivity|].
    assert (Hne : uniq (x :: l) <> []) by (by rewrite uniq_cons).
    rewrite (Unique_Some (x :: l)) by done.
    change (Unique (uniq (x :: l)) = Some (uniq (x :: l))).
    rewrite (Unique_Some _ Hne). f_equal. apply uniq_NoDup, NoDup_uniq.
Qed.

End HelpersFacts.

Section FilterFacts.
Context {T : Type} `{EqDecision T} `{GoZero T}.

Lemma filter_loop (P : T -> Prop) `{forall x, Decision (P x)} (acc l : list T) :
  foldl (fun result item => if decide (P item) then result ++ [item] else result)
        acc l
  = acc ++ filter P l.
Proof.
  revert acc. induction l as [|x l IH]; intros acc; simpl.
  - by rewrite app_nil_r.
  - rewrite IH. destruct (decide (P x)).
    + rewrite filter_cons_True by done. by rewrite <- app_assoc.
    + by rewrite filter_cons_False.
Qed.

(** X12: [FilterNonZero] never returns nil, not even on an empty slice; it
    returns the elements of the slice that differ from the zero value, in
    their order, so the zero value is not in the result and a slice
    without it comes back unchanged. *)
Theorem FilterNonZero_spec (l : list T) :
  FilterNonZero l = Some (filter (fun x => x <> go_zero) l) /\
  FilterNonZero (@nil T) = Some [] /\
  (forall r, FilterNonZero l = Some r ->
     (go_zero ∉ r) /\ (r `sublist_of` l) /\ FilterNonZero r = Some r) /\
  (go_zero ∉ l -> FilterNonZero l = Some l).
Proof.
  assert (Heq : forall k, FilterNonZero k = Some (filter (fun x => x <> go_zero) k)).
  { intros k. unfold FilterNonZero. by rewrite filter_loop. }
  split_and!; [apply Heq|done| |].
  - intros r. rewrite Heq. intros [= <-]. split_and!.
    + rewrite list_elem_of_filter. by intros [? _].
    + apply sublist_filter.
    + rewrite Heq. f_equal. apply filter_all.
      intros x. rewrite list_elem_of_filter. by intros [? _].
  - intros Hz. rewrite Heq. f_equal. apply filter_all. by intros x Hx ->.
Qed.

End FilterFacts.

Section MapGroupFacts.
Context {T R : Type}.

Lemma Map_loop `{GoZero R} (fn : T -> R) (l : list T) (n : nat) (r : list R) :
  length r = n + length l ->
  foldl (fun result '(i, item) => slice_set i (fn item) result)
        (Ok r) (imap (fun i x => (n + i, x)) l)
  = Ok (take n r ++ (fn <$> l)).
Proof.
  revert n r. induction l as [|x l IH]; intros n r Hlen; simpl in *.
  - rewrite app_nil_r, take_ge by lia. done.
  - rewrite Nat.add_0_r.
    destruct (n <? length r) eqn:Hlt; [|apply Nat.ltb_ge in Hlt; lia].
    rewrite (imap_ext _ (fun i x => (S n + i, x))) by (intros; simpl; f_equal; lia).
    rewrite IH by (rewrite length_insert; lia).
    f_equal. rewrite (take_S_r _ _ (fn x))
      by (apply list_lookup_insert_eq; lia).
    rewrite take_insert_ge by lia. by rewrite <- app_assoc.
Qed.

(** X13: [Map] never panics; it returns nil on an empty slice and otherwise
    a slice of the same length whose element [i] is [fn] of element [i]. *)
Theorem Map_spec `{GoZero R} (l : list T) (fn : T -> R) :
  Map l fn = Ok (if decide (l = []) then None else Some (fn <$> l)).
Proof.
  unfold Map. destruct l as [|x l]; [done|].
  rewrite decide_False by done. cbn [length Nat.eqb].
  rewrite (imap_ext _ (fun i y => (0 + i, y))) by done.
  rewrite Map_loop by (rewrite length_replicate; done). done.
Qed.

(** The loop of [Group] from any map. *)
Lemma Group_loop {K : Type} `{Countable K} (keyFn : T -> K)
    (l : list T) (m : gmap K (list T)) (k : K) :
  foldl (fun result item =>
           let key := keyFn item in
           <[key := default [] (result !! key) ++ [item]]> result) m l !! k
  = match filter (fun x => keyFn x = k) l with
    | [] => m !! k
    | g => Some (default [] (m !! k) ++ g)
    end.
Proof.
  revert m. induction l as [|x l IH]; intros m; simpl; [done|].
  rewrite IH. destruct (decide (keyFn x = k)) as [<-|Hne].
  - rewrite filter_cons_True by done. rewrite lookup_insert_eq. simpl.
    destruct (filter _ l); simpl; by rewrite <- ?app_assoc.
  - rewrite filter_cons_False by done. by rewrite lookup_insert_ne.
Qed.

(** X14: the group that [Group] holds for a key is the sub-slice of the
    elements with that key, in the order of the slice; a key that no
    element has is absent from the map, so no group is empty. *)
Theorem Group_lookup {K : Type} `{Countable K}
    (l : list T) (keyFn : T -> K) (k : K) :
  Group l keyFn !! k
  = match filter (fun x => keyFn x = k) l with
    | [] => None
    | g => Some g
    end.
Proof. unfold Group. rewrite Group_loop, lookup_empty. done. Qed.

Lemma group_sizes_insert {K : Type} `{Countable K}
    (m : gmap K (list T)) (k : K) (g : list T) :
  map_fold (fun _ g n => length g + n) 0 (<[k := g]> m)
  + length (default [] (m !! k))
  = map_fold (fun _ g n => length g + n) 0 m + length g.
Proof.
  assert (Hins : forall (m0 : gmap K (list T)) g0, m0 !! k = None ->
            map_fold (fun _ g n => length g + n) 0 (<[k := g0]> m0)
            = length g0 + map_fold (fun _ g n => length g + n) 0 m0).
  { intros m0 g0 Hk. rewrite map_fold_insert_L; [done| |done]. intros. lia. }
  destruct (m !! k) as [old|] eqn:Hk; simpl.
  - rewrite <- (insert_delete_eq m k g).
    rewrite <- (insert_delete_id m k old Hk) at 2.
    rewrite !Hins by apply lookup_delete_eq. lia.
  - rewrite Hins by done. lia.
Qed.

(** X15: [Group] loses no element and duplicates none: the sizes of its
    groups add up to the length of the slice, and an empty slice gives the
    empty map. *)
Theorem Group_sizes {K : Type} `{Countable K} (l : list T) (keyFn : T -> K) :
  map_fold (fun _ g n => length g + n) 0 (Group l keyFn) = length l /\
  Group [] keyFn = ∅.
Proof.
  split; [|done]. unfold Group.
  assert (Hloop : forall m : gmap K (list T),
    map_fold (fun _ g n => length g + n) 0
      (foldl (fun result item =>
                let key := keyFn item in
                <[key := default [] (result !! key) ++ [item]]> result) m l)
    = map_fold (fun _ g n => length g + n) 0 m + length l).
  { induction l as [|x l IH]; intros m; simpl; [lia|].
    rewrite IH.
    pose proof (group_sizes_insert m (keyFn x)
                  (default [] (m !! keyFn x) ++ [x])) as Hins.
    rewrite length_app in Hins. simpl in Hins. lia. }
  rewrite Hloop, map_fold_empty. done.
Qed.

End MapGroupFacts.

(* ===================================================================== *)
(** * Further properties of [Execute] *)
(* ===================================================================== *)

Section ExecuteMore.
Context {T R E : Type} `{GoZero R}.
Implicit Types (h : @MapConcurrentHandler T R E) (items : list T).
Implicit Types (ctx : @Context E) (st : @state T R E).

(** A non-empty input whose run has ended without a panic went through
    [finish]. *)
Lemma Ended_finish h items st :
  items <> [] -> (0 <= concurrency h)%Z -> Ended h items st ->
  exists st0, Inv h items st0 /\ main st0 = MWait /\ wg st0 = 0%Z /\
              st = finish st0.
Proof.
  intros Hne Hconc Hend. pose proof (numWorkers_nonneg h items Hconc).
  destruct (Ended_cases _ _ _ Hend) as
    [(st0 & _ & _ & ? & _)|[(st0 & _ & _ & ? & _)|Hfin]]; [done|lia|done].
Qed.

(** X16: on a non-empty input with a concurrency of at least 0, [Execute]
    always returns exactly one of an output and an error, and an output
    has the length of the input. *)
Theorem Execute_output_xor_error h items ctx :
  items <> [] -> (0 <= concurrency h)%Z ->
  inevitably h items
    (fun st => exists out err, main st = MReturned out err /\
       (out = None <-> err <> None) /\
       (forall res, out = Some res -> length res = length items))
    (Execute_init ctx).
Proof.
  intros Hne Hconc. apply Execute_inevitably. intros st Hend.
  destruct (Ended_finish _ _ _ Hne Hconc Hend) as (st0 & Hinv & Hm & _ & ->).
  destruct (finish_fields st0) as (_ & _ & _ & _ & _ & ->).
  destruct (inv_shape _ _ _ Hinv) as (Hlen & _); [by rewrite Hm|].
  destruct (errors_Join _) as [agg|].
  - exists None, (Some agg). split_and!; done.
  - exists (Some (results st0)), None. split_and!; [done|done|].
    by intros res [= <-].
Qed.

(** X17: with a concurrency of at least 1, an output that [Execute] returns
    is never partial: the transform succeeded on every element, the
    caller's context is live, and element [i] of the output is the
    transform's result on element [i] of the input. *)
Theorem Execute_output_complete h items ctx :
  items <> [] -> (1 <= concurrency h)%Z ->
  inevitably h items
    (fun st => exists out err, main st = MReturned out err /\
       forall res, out = Some res ->
         err = None /\ ambient st = None /\
         res = (fun x => (mapFunc h (mkContext CtxAmbient None) x).1) <$> items /\
         forall x, x ∈ items ->
                   (mapFunc h (mkContext CtxAmbient None) x).2 = None)
    (Execute_init ctx).
Proof.
  intros Hne Hconc. apply Execute_inevitably. intros st Hend.
  assert (Hnw : (1 <= numWorkers h items)%Z).
  { rewrite numWorkers_min. destruct items; [done|]. simpl length. lia. }
  assert (Hconc0 : (0 <= concurrency h)%Z) by lia.
  destruct (Ended_finish _ _ _ Hne Hconc0 Hend) as (st0 & Hinv & Hm & Hwg & ->).
  destruct (finish_fields st0) as (_ & _ & _ & _ & -> & ->).
  assert (Hms : main st0 <> MStart) by (by rewrite Hm).
  destruct (errors_Join _) as [agg|] eqn:Hj.
  - exists None, (Some agg). split; [done|]. by intros res.
  - exists (Some (results st0)), None. split; [done|]. intros res [= <-].
    destruct (Join_nil _ _ _ Hinv Hms Hj) as [Hnofail Ha].
    assert (Hcd : child_done st0 = false) by (eapply Inv_child_live; eauto).
    destruct (inv_shape _ _ _ Hinv Hms) as (Hlen & _).
    assert (Hall : forall i x, items !! i = Some x ->
              exists v, results st0 !! i = Some v /\
                        mapFunc h (mkContext CtxAmbient None) x = (v, None)).
    { intros i x Hx. pose proof (lookup_lt_Some _ _ _ Hx) as Hi.
      pose proof (Done_all_written _ _ _ i Hinv Hm Hwg Hnw Hcd Hi) as Hw.
      apply written_event in Hw as [[v Hv]|[e He]]; [|by apply Hnofail in He].
      apply (inv_stored _ _ _ Hinv) in Hv as (Hr & _ & Hp).
      rewrite Ha in Hp. apply produced_live in Hp as (x' & Hx' & Hf).
      simplify_eq. eauto. }
    split_and!; [done|done| |].
    + apply list_eq. intros i. rewrite list_lookup_fmap.
      destruct (items !! i) as [x|] eqn:Hx; simpl.
      * destruct (Hall _ _ Hx) as (v & -> & ->). done.
      * apply lookup_ge_None in Hx. apply lookup_ge_None. lia.
    + intros x [i Hx]%list_elem_of_lookup.
      destruct (Hall _ _ Hx) as (v & _ & ->). done.
Qed.

(** X18: the error that [Execute] returns holds nothing but the context's
    error and failures the transform gave, on the caller's context, for
    elements of the input. *)
Theorem Execute_error_sound h items ctx :
  items <> [] -> (0 <= concurrency h)%Z ->
  inevitably h items
    (fun st => exists out err, main st = MReturned out err /\
       forall agg e, err = Some agg -> e ∈ agg ->
         ambient st = Some e \/
         exists i x c v, items !! i = Some x /\ ctx_which c = CtxAmbient /\
                         mapFunc h c x = (v, Some e))
    (Execute_init ctx).
Proof.
  intros Hne Hconc. apply Execute_inevitably. intros st Hend.
  destruct (Ended_finish _ _ _ Hne Hconc Hend) as (st0 & Hinv & Hm & _ & ->).
  destruct (finish_fields st0) as (_ & _ & _ & _ & -> & ->).
  assert (Hms : main st0 <> MStart) by (by rewrite Hm).
  destruct (errors_Join _) as [agg|] eqn:Hj.
  - exists None, (Some agg). split; [done|]. intros ? e [= <-] He.
    apply (Join_members _ _ _ _ Hinv Hms Hj) in He as [[i Hi]|?]; [|by left].
    right. apply (inv_failed _ _ _ Hinv) in Hi as (_ & _ & v & c & x & Hx & Hc & _ & Hf).
    by exists i, x, c, v.
  - exists (Some (results st0)), None. split; [done|]. by intros agg e.
Qed.

(** X19: in every state of every run no index has its result slot or its
    error slot assigned twice, and only indices of the input are assigned. *)
Theorem Execute_writes_each_slot_once h items ctx sched st :
  run h items sched (Execute_init ctx) = Some st ->
  NoDup (written (trace st)) /\
  forall i, i ∈ written (trace st) -> i < length items.
Proof.
  intros Hrun. split; [by eapply Execute_slots_written_once|].
  apply run_Execute_reachable in Hrun.
  destruct (reachable_slots _ _ _ _ Hrun) as (_ & Hst & Hfl).
  intros i [[v Hv]|[e He]]%written_event.
  - apply Hst in Hv as (_ & _ & c & x & Hx & _). by eapply lookup_lt_Some.
  - apply Hfl in He as (_ & _ & v & c & x & Hx & _). by eapply lookup_lt_Some.
Qed.



(** X21: when [Execute] returns on a non-empty input, the elements whose
    slot was assigned are the first [k] elements of the input, for some
    [k]: no element is run while an earlier one is left out. *)
Theorem Execute_runs_a_prefix h items ctx :
  items <> [] -> (0 <= concurrency h)%Z ->
  inevitably h items
    (fun st => exists out err, main st = MReturned out err /\
       exists k, k <= length items /\
                 forall i, i ∈ written (trace st) <-> i < k)
    (Execute_init ctx).
Proof.
  intros Hne Hconc. apply Execute_inevitably. intros st Hend.
  destruct (Ended_finish _ _ _ Hne Hconc Hend) as (st0 & Hinv & Hm & Hwg & ->).
  destruct (Done_workers _ _ _ Hinv Hm Hwg) as (_ & _ & Hperm).
  destruct (inv_buf _ _ _ Hinv) as [_ Hle].
  destruct (finish_fields st0) as (_ & -> & _ & _ & _ & ->).
  assert (Hk : exists k, k <= length items /\
                forall i, i ∈ written (EvCancel :: trace st0) <-> i < k).
  { exists (invoked (trace st0)). split; [lia|]. intros i. simpl.
    rewrite Hperm, elem_of_seq. lia. }
  destruct (errors_Join _) as [agg|]; eauto.
Qed.

Lemma non_nil_app (l1 l2 : list (option E)) :
  non_nil (l1 ++ l2) = non_nil l1 ++ non_nil l2.
Proof.
  induction l1 as [|[e|] l1 IH]; simpl; [done| |done]. by rewrite IH.
Qed.

(** X22: under collect-all, with a concurrency of at least 1 and a live
    caller's context, what [Execute] returns on a non-empty input does not
    depend on the schedule: the error is the join of the transform's
    errors in the order of the input, and the output is the transform's
    results when that join is nil, and nil otherwise. *)
Theorem Execute_collect_all_result h items ctx :
  items <> [] -> (1 <= concurrency h)%Z -> stopOnError h = false ->
  inevitably h items
    (fun st => exists out err, main st = MReturned out err /\
       (ambient st = None ->
        err = errors_Join
                ((fun x => (mapFunc h (mkContext CtxAmbient None) x).2) <$> items) /\
        out = match err with
              | None =>
                  Some ((fun x => (mapFunc h (mkContext CtxAmbient None) x).1)
                          <$> items)
              | Some _ => None
              end))
    (Execute_init ctx).
Proof.
  intros Hne Hconc Hstop. apply Execute_inevitably. intros st Hend.
  assert (Hnw : (1 <= numWorkers h items)%Z).
  { rewrite numWorkers_min. destruct items; [done|]. simpl length. lia. }
  assert (Hconc0 : (0 <= concurrency h)%Z) by lia.
  destruct (Ended_finish _ _ _ Hne Hconc0 Hend) as (st0 & Hinv & Hm & Hwg & ->).
  destruct (finish_fields st0) as (_ & _ & _ & _ & -> & ->).
  assert (Hms : main st0 <> MStart) by (by rewrite Hm).
  destruct (inv_shape _ _ _ Hinv Hms) as (Hlr & Hle & HslotN & _).
  assert (Hlive : ambient st0 = None ->
    errs st0 ++ [ambient st0]
    = ((fun x => (mapFunc h (mkContext CtxAmbient None) x).2) <$> items)
      ++ [None; None] /\
    ((forall i e, EvFail i e ∉ trace st0) ->
     results st0
     = (fun x => (mapFunc h (mkContext CtxAmbient None) x).1) <$> items)).
  { intros Ha.
    assert (Hcd : child_done st0 = false) by (eapply Inv_child_live; eauto).
    assert (Hall : forall i x, items !! i = Some x ->
      errs st0 !! i = Some (mapFunc h (mkContext CtxAmbient None) x).2 /\
      ((forall i e, EvFail i e ∉ trace st0) ->
       results st0 !! i = Some (mapFunc h (mkContext CtxAmbient None) x).1)).
    { intros i x Hx. pose proof (lookup_lt_Some _ _ _ Hx) as Hi.
      pose proof (Done_all_written _ _ _ i Hinv Hm Hwg Hnw Hcd Hi) as Hw.
      apply written_event in Hw as [[v Hv]|[e He]].
      - apply (inv_stored _ _ _ Hinv) in Hv as (Hr & Her & Hp).
        rewrite Ha in Hp. apply produced_live in Hp as (x' & Hx' & Hf).
        simplify_eq. by rewrite Hf.
      - split; [|intros Hno; by apply Hno in He].
        apply (inv_failed _ _ _ Hinv) in He as (Her & _ & v & Hp).
        rewrite Ha in Hp. apply produced_live in Hp as (x' & Hx' & Hf).
        simplify_eq. by rewrite Hf. }
    split.
    - rewrite Ha. change [None; None] with ([@None E] ++ [None]).
      rewrite app_assoc. f_equal. apply list_eq. intros i.
      destruct (items !! i) as [x|] eqn:Hx.
      + rewrite lookup_app_l by (rewrite length_fmap; by eapply lookup_lt_Some).
        rewrite list_lookup_fmap, Hx. simpl. by apply Hall.
      + apply lookup_ge_None in Hx.
        destruct (decide (i = length items)) as [->|Hn].
        * rewrite HslotN, lookup_app_r by (rewrite length_fmap; lia).
          rewrite length_fmap, Nat.sub_diag. done.
        * rewrite !lookup_ge_None_2;
            [done|rewrite length_app, length_fmap; simpl; lia|lia].
    - intros Hno. apply list_eq. intros i. rewrite list_lookup_fmap.
      destruct (items !! i) as [x|] eqn:Hx; simpl.
      + by apply Hall.
      + apply lookup_ge_None in Hx. apply lookup_ge_None. lia. }
  assert (Hjoin : ambient st0 = None ->
    errors_Join (errs st0 ++ [ambient st0])
    = errors_Join ((fun x => (mapFunc h (mkContext CtxAmbient None) x).2) <$> items)).
  { intros Ha. destruct (Hlive Ha) as [-> _]. unfold errors_Join.
    rewrite non_nil_app. simpl. by rewrite app_nil_r. }
  destruct (errors_Join (errs st0 ++ [ambient st0])) as [agg|] eqn:Hj.
  - exists None, (Some agg). split; [done|]. intros Ha.
    rewrite <- (Hjoin Ha). done.
  - exists (Some (results st0)), None. split; [done|]. intros Ha.
    rewrite <- (Hjoin Ha). split; [done|]. f_equal.
    apply (Hlive Ha). apply (Join_nil _ _ _ Hinv Hms Hj).
Qed.

Lemma non_nil_single (l : list (option E)) (i0 : nat) (e : E) :
  l !! i0 = Some (Some e) ->
  (forall i e', l !! i = Some (Some e') -> i = i0) ->
  non_nil l = [e].
Proof.
  revert i0. induction l as [|x l IH]; intros i0 Hi0 Honly; [done|].
  assert (Hnil : forall k : list (option E),
            (forall i e', k !! i <> Some (Some e')) -> non_nil k = []).
  { induction k as [|[e'|] k IHk]; intros Hk; simpl; [done| |].
    - by destruct (Hk 0 e').
    - apply IHk. intros i e'. apply (Hk (S i)). }
  destruct i0 as [|i0]; simpl in Hi0; simplify_eq; simpl.
  - f_equal. apply Hnil. intros i e' Hi. by specialize (Honly (S i) e' Hi).
  - destruct x as [e'|]; [by specialize (Honly 0 e' eq_refl)|].
    apply (IH i0 Hi0). intros i e' Hi. by specialize (Honly (S i) e' Hi) as [= ->].
Qed.

(** X23: when the transform fails on exactly one element of the input,
    then, whatever the policy and the schedule, with a concurrency of at
    least 1 and a live caller's context [Execute] returns a nil output and
    an error holding that one failure. *)
Theorem Execute_single_failure h items ctx (i0 : nat) (x0 : T) (e : E) :
  (1 <= concurrency h)%Z ->
  items !! i0 = Some x0 ->
  (mapFunc h (mkContext CtxAmbient None) x0).2 = Some e ->
  (forall i x, items !! i = Some x -> i <> i0 ->
               (mapFunc h (mkContext CtxAmbient None) x).2 = None) ->
  inevitably h items
    (fun st => exists out err, main st = MReturned out err /\
       (ambient st = None -> out = None /\ err = Some [e]))
    (Execute_init ctx).
Proof.
  intros Hconc Hx0 He Hothers. apply Execute_inevitably. intros st Hend.
  assert (Hne : items <> []) by (by intros Hnil; rewrite Hnil in Hx0).
  assert (Hnw : (1 <= numWorkers h items)%Z).
  { rewrite numWorkers_min. destruct items; [done|]. simpl length. lia. }
  assert (Hconc0 : (0 <= concurrency h)%Z) by lia.
  destruct (Ended_finish _ _ _ Hne Hconc0 Hend) as (st0 & Hinv & Hm & Hwg & ->).
  destruct (finish_fields st0) as (_ & _ & _ & _ & -> & ->).
  assert (Hms : main st0 <> MStart) by (by rewrite Hm).
  assert (Hlive : ambient st0 = None ->
            errors_Join (errs st0 ++ [ambient st0]) = Some [e]).
  { intros Ha.
    assert (Hfail : forall i e', EvFail i e' ∈ trace st0 -> i = i0 /\ e' = e).
    { intros i e' Hin.
      apply (inv_failed _ _ _ Hinv) in Hin as (_ & _ & v & Hp).
      rewrite Ha in Hp. apply produced_live in Hp as (x & Hx & Hf).
      destruct (decide (i = i0)) as [->|Hn].
      - simplify_eq. rewrite Hf in He. by simplify_eq/=.
      - specialize (Hothers _ _ Hx Hn). by rewrite Hf in Hothers. }
    assert (Hrec : EvFail i0 e ∈ trace st0).
    { destruct (errors_Join (errs st0 ++ [ambient st0])) as [agg|] eqn:Hj.
      - destruct (Join_Some_inhabited _ _ Hj) as [e' He'].
        apply (Join_members _ _ _ _ Hinv Hms Hj) in He' as [[i Hi]|?];
          [|congruence].
        by destruct (Hfail _ _ Hi) as [-> ->].
      - destruct (Join_nil _ _ _ Hinv Hms Hj) as [Hno _].
        assert (Hcd : child_done st0 = false) by (eapply Inv_child_live; eauto).
        pose proof (lookup_lt_Some _ _ _ Hx0) as Hi.
        pose proof (Done_all_written _ _ _ i0 Hinv Hm Hwg Hnw Hcd Hi) as Hw.
        apply written_event in Hw as [[v Hv]|[e' He']]; [|by apply Hno in He'].
        apply (inv_stored _ _ _ Hinv) in Hv as (_ & _ & Hp).
        rewrite Ha in Hp. apply produced_live in Hp as (x & Hx & Hf).
        simplify_eq. by rewrite Hf in He. }
    unfold errors_Join.
    rewrite (non_nil_single _ i0 e); [done| |].
    - apply lookup_app_l_Some. by apply (inv_failed _ _ _ Hinv) in Hrec as [? _].
    - intros i e' Hi. apply lookup_app_Some in Hi as [Hi|[_ Hi]].
      + by apply (Inv_errs _ _ _ _ _ Hinv Hms), Hfail in Hi as [? _].
      + apply list_lookup_singleton_Some in Hi as [_ Hi]. congruence. }
  destruct (errors_Join (errs st0 ++ [ambient st0])) as [agg|] eqn:Hj.
  - exists None, (Some agg). split; [done|]. intros Ha.
    specialize (Hlive Ha). by simplify_eq.
  - exists (Some (results st0)), None. split; [done|]. intros Ha.
    by specialize (Hlive Ha).
Qed.

End ExecuteMore.

Lemma Execute_output_xor_error_witness :
  [1; 2; 3] <> [] /\ (0 <= concurrency (MapConcurrent fail_at_3))%Z /\
  inevitably (MapConcurrent fail_at_3) [1; 2; 3]
    (fun st => exists out err, main st = MReturned out err /\
       (out = None <-> err <> None) /\
       (forall res, out = Some res -> length res = 3))
    (Execute_init background).
Proof.
  split; [discriminate|]. split; [simpl; lia|].
  apply (Execute_output_xor_error (MapConcurrent fail_at_3) [1; 2; 3] background).
  - discriminate.
  - simpl; lia.
Defined.

Lemma Execute_output_complete_witness :
  [1; 2; 4] <> [] /\ (1 <= concurrency (MapConcurrent fail_at_3))%Z /\
  inevitably (MapConcurrent fail_at_3) [1; 2; 4]
    (fun st => exists out err, main st = MReturned out err /\
       forall res, out = Some res ->
         err = None /\ ambient st = None /\ res = [2; 4; 8] /\
         forall x, x ∈ [1; 2; 4] ->
                   (fail_at_3 (mkContext CtxAmbient None) x).2 = None)
    (Execute_init background).
Proof.
  split; [discriminate|]. split; [simpl; lia|].
  apply (Execute_output_complete (MapConcurrent fail_at_3) [1; 2; 4] background).
  - discriminate.
  - simpl; lia.
Defined.

Lemma Execute_error_sound_witness :
  [1; 2; 3] <> [] /\ (0 <= concurrency (MapConcurrent fail_at_3))%Z /\
  inevitably (MapConcurrent fail_at_3) [1; 2; 3]
    (fun st => exists out err, main st = MReturned out err /\
       forall agg e, err = Some agg -> e ∈ agg ->
         ambient st = Some e \/
         exists i x c v, [1; 2; 3] !! i = Some x /\ ctx_which c = CtxAmbient /\
                         fail_at_3 c x = (v, Some e))
    (Execute_init background).
Proof.
  split; [discriminate|]. split; [simpl; lia|].
  apply (Execute_error_sound (MapConcurrent fail_at_3) [1; 2; 3] background).
  - discriminate.
  - simpl; lia.
Defined.

Lemma Execute_writes_each_slot_once_witness :
  exists st,
    run (WithStopOnError (WithConcurrency (MapConcurrent fail_at_3) 2) false)
        [3; 4] sched_two_workers (Execute_init background) = Some st /\
    written (trace st) = [0; 1] /\
    NoDup (written (trace st)) /\
    forall i, i ∈ written (trace st) -> i < 2.
Proof.
  eexists. split; [vm_compute; reflexivity|]. split; [reflexivity|].
  apply (Execute_writes_each_slot_once
           (WithStopOnError (WithConcurrency (MapConcurrent fail_at_3) 2) false)
           [3; 4] background sched_two_workers).
  vm_compute; reflexivity.
Defined.


Lemma Execute_runs_a_prefix_witness :
  [1; 2; 3] <> [] /\ (0 <= concurrency (MapConcurrent fail_at_3))%Z /\
  inevitably (MapConcurrent fail_at_3) [1; 2; 3]
    (fun st => exists out err, main st = MReturned out err /\
       exists k, k <= 3 /\ forall i, i ∈ written (trace st) <-> i < k)
    (Execute_init background).
Proof.
  split; [discriminate|]. split; [simpl; lia|].
  apply (Execute_runs_a_prefix (MapConcurrent fail_at_3) [1; 2; 3] background).
  - discriminate.
  - simpl; lia.
Defined.

Lemma Execute_collect_all_result_witness :
  [1; 2; 3; 4] <> [] /\
  (1 <= concurrency (WithStopOnError (MapConcurrent fail_at_3) false))%Z /\
  stopOnError (WithStopOnError (MapConcurrent fail_at_3) false) = false /\
  inevitably (WithStopOnError (MapConcurrent fail_at_3) false) [1; 2; 3; 4]
    (fun st => exists out err, main st = MReturned out err /\
       (ambient st = None ->
        err = Some ["error at 3"%string] /\
        out = match err with
              | None => Some [2; 4; 0; 8]
              | Some _ => None
              end))
    (Execute_init background).
Proof.
  split; [discriminate|]. split; [simpl; lia|]. split; [reflexivity|].
  apply (Execute_collect_all_result
           (WithStopOnError (MapConcurrent fail_at_3) false) [1; 2; 3; 4]
           background).
  - discriminate.
  - simpl; lia.
  - reflexivity.
Defined.

Lemma NewNamespace_environment_witness :
  Environment (NewNamespace (fun s => s) "prd"%string) = "vibe"%string /\
  NewIDWithValue (NewNamespace (fun s => s) "prd"%string)
                 "user"%string "custom123"%string
  = inl (mkID "vibe" "user" "custom123")%string /\
  ID_Validate (mkID "vibe" "user" "custom123")%string = None.
Proof.
  split; [reflexivity|]. split; [reflexivity|].
  apply (NewNamespace_environment (fun s => s) "prd" "user" "custom123")%string.
  reflexivity.
Defined.

Lemma Unique_dedup_witness :
  [1; 2; 2; 3; 1; 4; 3] <> [] /\
  exists r, Unique [1; 2; 2; 3; 1; 4; 3] = Some r /\ NoDup r /\
            (forall x, x ∈ r <-> x ∈ [1; 2; 2; 3; 1; 4; 3]) /\
            r `sublist_of` [1; 2; 2; 3; 1; 4; 3].
Proof.
  split; [discriminate|].
  apply (Unique_dedup [1; 2; 2; 3; 1; 4; 3]). discriminate.
Defined.

Lemma Unique_idempotent_witness :
  [1; 2; 3; 4] <> [] /\ NoDup [1; 2; 3; 4] /\
  Unique [1; 2; 3; 4] = Some [1; 2; 3; 4].
Proof.
  assert (Hnd : NoDup [1; 2; 3; 4]).
  { apply NoDup_ListNoDup. repeat constructor; simpl; lia. }
  split; [discriminate|]. split; [exact Hnd|].
  apply (Unique_idempotent [1; 2; 3; 4]); [discriminate|exact Hnd].
Defined.

Lemma FilterNonZero_spec_witness :
  FilterNonZero [0; 1; 0; 2; 3] = Some [1; 2; 3] /\
  (go_zero ∉ [1; 2; 3]) /\ ([1; 2; 3] `sublist_of` [0; 1; 0; 2; 3]) /\
  FilterNonZero [1; 2; 3] = Some [1; 2; 3].
Proof.
  split; [reflexivity|].
  apply (FilterNonZero_spec [0; 1; 0; 2; 3]). reflexivity.
Defined.

Lemma Execute_single_failure_witness :
  (1 <= concurrency (MapConcurrent fail_at_3))%Z /\
  [1; 2; 3; 4; 5] !! 2 = Some 3 /\
  (fail_at_3 (mkContext CtxAmbient None) 3).2 = Some "error at 3"%string /\
  (forall i x, [1; 2; 3; 4; 5] !! i = Some x -> i <> 2 ->
               (fail_at_3 (mkContext CtxAmbient None) x).2 = None) /\
  inevitably (MapConcurrent fail_at_3) [1; 2; 3; 4; 5]
    (fun st => exists out err, main st = MReturned out err /\
       (ambient st = None -> out = None /\ err = Some ["error at 3"%string]))
    (Execute_init background).
Proof.
  assert (Hothers : forall i x, [1; 2; 3; 4; 5] !! i = Some x -> i <> 2 ->
                      (fail_at_3 (mkContext CtxAmbient None) x).2 = None).
  { intros i x Hx Hi. do 5 (destruct i as [|i]; [simpl in Hx; by simplify_eq|]).
    done. }
  split; [simpl; lia|]. split; [reflexivity|]. split; [reflexivity|].
  split; [exact Hothers|].
  apply (Execute_single_failure (MapConcurrent fail_at_3) [1; 2; 3; 4; 5]
           background 2 3 "error at 3"%string).
  - simpl; lia.
  - reflexivity.
  - reflexivity.
  - exact Hothers.
Defined.
